(** * joined_freqs_from_bam.py: joined nucleotide counts at several positions

    A shallow embedding of [joined_counts] and of the request checks of
    [main] (src/joined_freqs_from_bam.py), with the properties of the
    repository's specification stated over it.

    Python values are modelled as follows:
    - [int] / [long] as [Z];
    - [str] (a Python 2 byte string) as [string], one character of it
      (what [s[i]] yields) as [ascii];
    - [dict] as stdpp's [gmap], [frozenset] as [gset];
    - a raised exception as the [Raise] alternative of [result]. *)

From Stdlib Require Import ZArith Ascii String.
From stdpp Require Import base option list gmap sets strings fin_maps.

Local Open Scope Z_scope.

(** ** Exceptions and the error monad *)

Inductive exn : Type :=
  | AssertionError
  | IndexError
  | KeyError
  | ValueError.

Inductive result (A : Type) : Type :=
  | Ok (a : A)
  | Raise (e : exn).

Arguments Ok {A} a.
Arguments Raise {A} e.

Definition result_bind {A B : Type} (f : A → result B) (r : result A) : result B :=
  match r with
  | Ok a => f a
  | Raise e => Raise e
  end.

#[global] Instance result_ret : MRet result := λ A a, Ok a.
#[global] Instance result_mbind : MBind result := λ A B f r, result_bind f r.

(** [assert b]. Assertions are taken as enabled (the interpreter's default). *)
Definition py_assert (b : bool) : result unit :=
  if b then Ok tt else Raise AssertionError.

(** ** Python built-ins used by the source *)

Module Py.

Definition len (s : string) : Z := Z.of_nat (String.length s).

(** [s[i]] on a string: negative indices count from the end,
    anything outside [-len .. len-1] raises [IndexError]. *)
Definition getitem (s : string) (i : Z) : result ascii :=
  let j := if i <? 0 then i + len s else i in
  if (j <? 0) || (len s <=? j) then Raise IndexError
  else match String.get (Z.to_nat j) s with
       | Some c => Ok c
       | None => Raise IndexError
       end.

(** [s[:stop]]: slices never raise, the bound is clamped. *)
Definition slice_to (s : string) (stop : Z) : string :=
  let e := if stop <? 0 then Z.max 0 (stop + len s) else Z.min stop (len s) in
  String.substring 0 (Z.to_nat e) s.

(** [''.join(cs)] for a list of one-character strings. *)
Definition join (cs : list ascii) : string := string_of_list_ascii cs.

(** [min(l)] and [max(l)]: [ValueError] on the empty sequence. *)
Definition min (l : list Z) : result Z :=
  match l with
  | [] => Raise ValueError
  | x :: l' => Ok (foldl Z.min x l')
  end.

Definition max (l : list Z) : result Z :=
  match l with
  | [] => Raise ValueError
  | x :: l' => Ok (foldl Z.max x l')
  end.

(** [d[k]] on a dict: [KeyError] when the key is missing. *)
Definition dict_getitem `{Countable K} {V : Type} (d : gmap K V) (k : K) : result V :=
  match d !! k with
  | Some v => Ok v
  | None => Raise KeyError
  end.

(** [dict(l)] for a list of pairs: inserted left to right, so that a
    key given twice keeps its last value. *)
Definition dict_of_pairs `{Countable K} {V : Type} (l : list (K * V)) : gmap K V :=
  foldl (λ d kv, <[kv.1 := kv.2]> d) ∅ l.

(** [l[0]] on a list. *)
Definition head_item {A : Type} (l : list A) : result A :=
  match l with
  | [] => Raise IndexError
  | x :: _ => Ok x
  end.

End Py.

(** ** The data model *)

(** What the source reads of a pysam [AlignedRead]. *)
Record AlignedRead : Type := {
  is_unmapped : bool;
  is_duplicate : bool;
  is_paired : bool;
  is_proper_pair : bool;
  is_qcfail : bool;
  is_secondary : bool;
  mapq : Z;
  qname : string;
  query : string;
  aligned_pairs : list (option Z * option Z)  (* (qpos, rpos), None for a gap *)
}.

(** A pysam [Samfile]: [fetch(chrom, start, end)] yields the reads of the
    region in the store's order, or raises. *)
Record Samfile : Type := {
  fetch : string → Z → Z → result (list AlignedRead)
}.

(** The local variables of [joined_counts] that live across the loop over
    the fetched reads: the five rejection counters and [pos_overlap]. *)
Record ScanState : Type := {
  num_dups : Z;
  num_anomalous : Z;
  num_qcfail : Z;
  num_secondary : Z;
  num_below_mq_min : Z;
  pos_overlap : gmap Z (gmap string ascii)
}.

Definition init_state : ScanState :=
  {| num_dups := 0; num_anomalous := 0; num_qcfail := 0; num_secondary := 0;
     num_below_mq_min := 0; pos_overlap := ∅ |}.

(** ** The body of the loop over the fetched reads *)

(** The list comprehension of lines 138-140: the pairs with both offsets
    present, each with the query base looked up, in alignment order. *)
Fixpoint pos_nt_pairs (q : string) (pairs : list (option Z * option Z))
  : result (list (Z * ascii)) :=
  match pairs with
  | [] => Ok []
  | (Some qpos, Some rpos) :: rest =>
      b ← Py.getitem q qpos;
      tl ← pos_nt_pairs q rest;
      Ok ((rpos, b) :: tl)
  | _ :: rest => pos_nt_pairs q rest
  end.

Definition pos_nt_map (r : AlignedRead) : result (gmap Z ascii) :=
  l ← pos_nt_pairs (query r) (aligned_pairs r);
  Ok (Py.dict_of_pairs l).

Definition is_mate_separator (c : ascii) : bool :=
  bool_decide (c = "."%char) || bool_decide (c = "/"%char) || bool_decide (c = "#"%char).

(** Lines 147-150: the read id shared by the two mates of a pair. *)
Definition read_id_base (name : string) : result string :=
  c ← Py.getitem name (-2);
  if is_mate_separator c then Ok (Py.slice_to name (-2)) else Ok name.

(** Lines 155-158, for one requested position. *)
Definition record_pos (id : string) (m : gmap Z ascii)
    (po : gmap Z (gmap string ascii)) (pos : Z) : gmap Z (gmap string ascii) :=
  match m !! pos with
  | Some b => <[pos := <[id := b]> (default ∅ (po !! pos))]> po
  | None => po
  end.

Definition record_positions (positions : list Z) (id : string) (m : gmap Z ascii)
    (po : gmap Z (gmap string ascii)) : gmap Z (gmap string ascii) :=
  foldl (record_pos id m) po positions.

Definition set_pos_overlap (st : ScanState) (po : gmap Z (gmap string ascii)) : ScanState :=
  {| num_dups := num_dups st; num_anomalous := num_anomalous st;
     num_qcfail := num_qcfail st; num_secondary := num_secondary st;
     num_below_mq_min := num_below_mq_min st; pos_overlap := po |}.

(** Lines 111-158: one iteration. *)
Definition process_read (positions : list Z) (min_mq : Z)
    (st : ScanState) (alnread : AlignedRead) : result ScanState :=
  _ ← py_assert (negb (is_unmapped alnread));
  if is_duplicate alnread then
    Ok {| num_dups := num_dups st + 1; num_anomalous := num_anomalous st;
          num_qcfail := num_qcfail st; num_secondary := num_secondary st;
          num_below_mq_min := num_below_mq_min st; pos_overlap := pos_overlap st |}
  else if is_paired alnread && negb (is_proper_pair alnread) then
    Ok {| num_dups := num_dups st; num_anomalous := num_anomalous st + 1;
          num_qcfail := num_qcfail st; num_secondary := num_secondary st;
          num_below_mq_min := num_below_mq_min st; pos_overlap := pos_overlap st |}
  else if is_qcfail alnread then
    Ok {| num_dups := num_dups st; num_anomalous := num_anomalous st;
          num_qcfail := num_qcfail st + 1; num_secondary := num_secondary st;
          num_below_mq_min := num_below_mq_min st; pos_overlap := pos_overlap st |}
  else if is_secondary alnread then
    Ok {| num_dups := num_dups st; num_anomalous := num_anomalous st;
          num_qcfail := num_qcfail st; num_secondary := num_secondary st + 1;
          num_below_mq_min := num_below_mq_min st; pos_overlap := pos_overlap st |}
  else if mapq alnread <? min_mq then
    Ok {| num_dups := num_dups st; num_anomalous := num_anomalous st;
          num_qcfail := num_qcfail st; num_secondary := num_secondary st;
          num_below_mq_min := num_below_mq_min st + 1; pos_overlap := pos_overlap st |}
  else
    m ← pos_nt_map alnread;
    id ← read_id_base (qname alnread);
    Ok (set_pos_overlap st (record_positions positions id m (pos_overlap st))).

(** The [for alnread in sam.fetch(...)] loop. *)
Fixpoint scan_reads (positions : list Z) (min_mq : Z)
    (st : ScanState) (reads : list AlignedRead) : result ScanState :=
  match reads with
  | [] => Ok st
  | alnread :: rest =>
      st' ← process_read positions min_mq st alnread;
      scan_reads positions min_mq st' rest
  end.

(** ** After the loop: intersection and tally *)

(** Lines 162-164: fold the remaining positions into the intersection. *)
Fixpoint intersect_rest (po : gmap Z (gmap string ascii)) (acc : gset string)
    (rest : list Z) : result (gset string) :=
  match rest with
  | [] => Ok acc
  | pos :: rest' =>
      d ← Py.dict_getitem po pos;
      intersect_rest po (acc ∩ dom d) rest'
  end.

(** Lines 161-165: the read ids seen at every requested position. *)
Definition overlapping_all (positions : list Z) (po : gmap Z (gmap string ascii))
  : result (gset string) :=
  p0 ← Py.head_item positions;
  d0 ← Py.dict_getitem po p0;
  intersect_rest po (dom d0) (tail positions).

(** The comprehension [[pos_overlap[p][read_id] for p in positions]]. *)
Fixpoint joint_bases (po : gmap Z (gmap string ascii)) (read_id : string)
    (positions : list Z) : result (list ascii) :=
  match positions with
  | [] => Ok []
  | p :: ps =>
      d ← Py.dict_getitem po p;
      b ← Py.dict_getitem d read_id;
      tl ← joint_bases po read_id ps;
      Ok (b :: tl)
  end.

Definition joint_key (po : gmap Z (gmap string ascii)) (positions : list Z)
    (read_id : string) : result string :=
  bs ← joint_bases po read_id positions;
  Ok (Py.join bs).

(** Lines 168-170: the loop over [overlapping_all]. *)
Fixpoint count_keys (po : gmap Z (gmap string ascii)) (positions : list Z)
    (counts : gmap string Z) (ids : list string) : result (gmap string Z) :=
  match ids with
  | [] => Ok counts
  | read_id :: rest =>
      key ← joint_key po positions read_id;
      count_keys po positions (<[key := default 0 (counts !! key) + 1]> counts) rest
  end.

(** [sum(counts.values())]. *)
Definition sum_values (counts : gmap string Z) : Z :=
  map_fold (λ _ v acc, v + acc) 0 counts.

(** Everything [joined_counts] computes on the way to its return value. *)
Record Run : Type := {
  run_state : ScanState;
  run_overlapping_all : gset string;
  run_counts : gmap string Z
}.

(** The assertion of line 94; [and] evaluates [min] only when the length
    test holds. *)
Definition request_ok (positions : list Z) : result bool :=
  if 2 <=? Z.of_nat (length positions) then
    lo ← Py.min positions; Ok (0 <=? lo)
  else Ok false.

(** [list(overlapping_all)] is taken in the order [elements] gives; the
    tally is a dict and does not depend on that order. *)
Definition joined_counts_run (sam : Samfile) (chrom : string)
    (positions : list Z) (min_mq : Z) : result Run :=
  ok ← request_ok positions;
  _ ← py_assert ok;
  lo ← Py.min positions;
  hi ← Py.max positions;
  reads ← fetch sam chrom lo (hi + 1);
  st ← scan_reads positions min_mq init_state reads;
  ids ← overlapping_all positions (pos_overlap st);
  counts ← count_keys (pos_overlap st) positions ∅ (elements ids);
  Ok {| run_state := st; run_overlapping_all := ids; run_counts := counts |}.

Definition joined_counts (sam : Samfile) (chrom : string)
    (positions : list Z) (min_mq : Z) : result (gmap string Z) :=
  r ← joined_counts_run sam chrom positions min_mq;
  Ok (run_counts r).

(** ** The request checks of [main] *)

Record Args : Type := {
  arg_bam : string;
  arg_chrom : string;
  arg_positions : list Z;      (* one-based, as given on the command line *)
  arg_ref_fa : option string;
  arg_min_mq : Z
}.

(** What [main] touches outside the program: the file system, the opening
    of the BAM file and the printing of the reference bases. *)
Record Env : Type := {
  path_exists : string → bool;
  open_samfile : string → Samfile;
  print_reference : string → string → list Z → result unit
}.

Inductive outcome : Type :=
  | SysExit (code : Z)
  | Uncaught (e : exn)
  | Report (counts : gmap string Z).

Definition truthy (o : option string) : bool :=
  match o with
  | Some s => negb (bool_decide (s = EmptyString))
  | None => false
  end.

Definition main (env : Env) (args : Args) : outcome :=
  if negb (path_exists env (arg_bam args)) then SysExit 1
  else if truthy (arg_ref_fa args)
          && negb (path_exists env (default EmptyString (arg_ref_fa args))) then SysExit 1
  else
    let positions := map (λ x, x - 1) (arg_positions args) in
    if Z.of_nat (length positions) <? 2 then SysExit 1
    else if existsb (λ pos, pos <? 0) positions then SysExit 1
    else
      match (if truthy (arg_ref_fa args)
             then print_reference env (default EmptyString (arg_ref_fa args))
                    (arg_chrom args) positions
             else Ok tt) with
      | Raise e => Uncaught e
      | Ok _ =>
          match joined_counts (open_samfile env (arg_bam args)) (arg_chrom args)
                  positions (arg_min_mq args) with
          | Raise e => Uncaught e
          | Ok counts => Report counts
          end
      end.

(** ** Sample data *)

Module Sample.

Definition read (name seq : string) (start : Z) (q : Z) : AlignedRead :=
  {| is_unmapped := false; is_duplicate := false; is_paired := false;
     is_proper_pair := false; is_qcfail := false; is_secondary := false;
     mapq := q; qname := name; query := seq;
     aligned_pairs :=
       imap (λ i _, (Some (Z.of_nat i), Some (start + Z.of_nat i)))
            (list_ascii_of_string seq) |}.

Definition store (reads : list AlignedRead) : Samfile :=
  {| fetch := λ _ _ _, Ok reads |}.

(* a store without the requested contig *)
Definition no_contig : Samfile :=
  {| fetch := λ _ _ _, Raise ValueError |}.

Definition env (sam : Samfile) : Env :=
  {| path_exists := λ _, true;
     open_samfile := λ _, sam;
     print_reference := λ _ _ _, Ok tt |}.

Definition args (ps : list Z) : Args :=
  {| arg_bam := "reads.bam"; arg_chrom := "chr1"; arg_positions := ps;
     arg_ref_fa := None; arg_min_mq := 13 |}.

(* positions 5 and 12 of the command line, zero-based *)
Definition positions : list Z := [4; 11].

Definition read_A : AlignedRead := read "readA" "TTAGGGGGGCTT" 2 60.
Definition read_B : AlignedRead := read "readB" "GGAGG" 2 60.
Definition mate_1 : AlignedRead := read "pair7/1" "GC" 4 60.
Definition mate_2 : AlignedRead := read "pair7/2" "TA" 11 60.
Definition low_mq : AlignedRead := read "readC" "TTAGGGGGGCTT" 2 5.

(* aligned at the very start of the reference, with one deleted and one
   inserted base *)
Definition at_origin : AlignedRead :=
  {| is_unmapped := false; is_duplicate := false; is_paired := false;
     is_proper_pair := false; is_qcfail := false; is_secondary := false;
     mapq := 60; qname := "readE"; query := "ACG";
     aligned_pairs := [(Some 0, Some 0); (None, Some 1); (Some 1, None);
                       (Some 2, Some 2)] |}.

(* two mates that both cover position 4 and disagree on its base *)
Definition clash_1 : AlignedRead := read "pair9/1" "GC" 4 60.
Definition clash_2 : AlignedRead := read "pair9/2" "AT" 3 60.

(* flagged as duplicate and as qc-fail, and below the default threshold *)
Definition flagged : AlignedRead :=
  {| is_unmapped := false; is_duplicate := true; is_paired := false;
     is_proper_pair := false; is_qcfail := true; is_secondary := false;
     mapq := 3; qname := "readD"; query := "ACGT";
     aligned_pairs := [(Some 0, Some 4); (Some 1, Some 5)] |}.


(* the observer map after scanning a pair of mates and two single reads *)
Definition scanned : gmap Z (gmap string ascii) :=
  match scan_reads positions 13 init_state [mate_1; read_A; mate_2; read_B] with
  | Ok st => pos_overlap st
  | Raise _ => ∅
  end.

(* the run over the same reads *)
Definition reads : list AlignedRead := [mate_1; read_A; mate_2; read_B].

Definition run : Run :=
  match joined_counts_run (store reads) "chr1" positions 13 with
  | Ok r => r
  | Raise _ =>
      {| run_state := init_state; run_overlapping_all := ∅; run_counts := ∅ |}
  end.

End Sample.

(** The entries of a returned table, for stating concrete runs. *)
Definition table (r : result (gmap string Z)) : result (list (string * Z)) :=
  counts ← r; Ok (map_to_list counts).

(** ** Vocabulary of the statements *)

Definition counters (st : ScanState) : list Z :=
  [num_dups st; num_anomalous st; num_qcfail st; num_secondary st; num_below_mq_min st].

(** [st'] is [st] with the rejection counters moved by [delta] and the
    observer map untouched. *)
Definition bumps (st st' : ScanState) (delta : list Z) : Prop :=
  counters st' = zip_with Z.add (counters st) delta
  ∧ pos_overlap st' = pos_overlap st.

Definition passes_filters (min_mq : Z) (r : AlignedRead) : bool :=
  negb (is_duplicate r)
  && negb (is_paired r && negb (is_proper_pair r))
  && negb (is_qcfail r)
  && negb (is_secondary r)
  && negb (mapq r <? min_mq).

(** The mate suffix characters of line 147. *)
Definition mate_separators : list ascii := ["."%char; "/"%char; "#"%char].

(** The read id as the specification words it: "if the character two
    positions before the end of the query name is one of [.], [/], [#],
    strip the final two characters; otherwise use the full query name
    unchanged". *)
Definition logical_id_spec (name : string) : string :=
  match rev (list_ascii_of_string name) with
  | _ :: c :: front =>
      if bool_decide (c ∈ mate_separators)
      then string_of_list_ascii (rev front)
      else name
  | _ => name
  end.

(** The base recorded for a read id at a position, if any. *)
Definition observed (po : gmap Z (gmap string ascii)) (pos : Z) (id : string)
  : option ascii :=
  po !! pos ≫= λ d, d !! id.

(** The read ids recorded at a position; a position that was never written
    has no entry in [pos_overlap] at all. *)
Definition observers (po : gmap Z (gmap string ascii)) (pos : Z) : option (gset string) :=
  dom <$> po !! pos.

(** Every aligned pair with both offsets present indexes into the query. *)
Definition offsets_in_query (r : AlignedRead) : Prop :=
  ∀ qpos rpos, (Some qpos, Some rpos) ∈ aligned_pairs r → 0 ≤ qpos < Py.len (query r).

(** [len(pos_overlap[p])], and its minimum over the requested positions. *)
Definition observer_count (po : gmap Z (gmap string ascii)) (p : Z) : nat :=
  size (default ∅ (po !! p)).

Definition min_observer_count (po : gmap Z (gmap string ascii)) (positions : list Z) : nat :=
  match positions with
  | [] => 0%nat
  | p :: ps => foldl Nat.min (observer_count po p) (observer_count po <$> ps)
  end.

(** A key of the table comes from a read id of the list being tallied. *)
Definition key_of (po : gmap Z (gmap string ascii)) (positions : list Z)
    (ids : list string) (key : string) : Prop :=
  ∃ id bs, id ∈ ids
    ∧ Forall2 (λ p b, observed po p id = Some b) positions bs
    ∧ key = Py.join bs.

(** The sum of the five rejection counters. *)
Definition rejected_total (st : ScanState) : Z :=
  num_dups st + num_anomalous st + num_qcfail st + num_secondary st
  + num_below_mq_min st.

(** How many reads of a list satisfy a test. *)
Definition how_many (f : AlignedRead → bool) (reads : list AlignedRead) : Z :=
  Z.of_nat (length (List.filter f reads)).


(** An accepted read with read id [id] that has a base at position [p]:
    the reads whose iteration reaches the write of line 158 for [(p, id)],
    when [p] is requested. *)
Definition covers (min_mq : Z) (r : AlignedRead) (p : Z) (id : string) (b : ascii) : Prop :=
  is_unmapped r = false
  ∧ passes_filters min_mq r = true
  ∧ read_id_base (qname r) = Ok id
  ∧ ∃ m, pos_nt_map r = Ok m ∧ m !! p = Some b.

(** Whether a read id's joint key at the requested positions is [key]. *)
Definition has_key (po : gmap Z (gmap string ascii)) (positions : list Z)
    (key : string) (id : string) : bool :=
  match joint_key po positions id with
  | Ok k => bool_decide (k = key)
  | Raise _ => false
  end.

(** ** More sample data *)

Module Cases.

(* The result of a computation that is known to go through. *)
Definition get {A : Type} (dflt : A) (r : result A) : A :=
  match r with
  | Ok a => a
  | Raise _ => dflt
  end.

(* a rejected, an accepted and another rejected read *)
Definition mixed : list AlignedRead := [Sample.flagged; Sample.read_A; Sample.low_mq].

Definition after_mixed : ScanState :=
  get init_state (scan_reads Sample.positions 13 init_state mixed).

(* unmapped, and flagged as duplicate *)
Definition unmapped_dup : AlignedRead :=
  {| is_unmapped := true; is_duplicate := true; is_paired := false;
     is_proper_pair := false; is_qcfail := false; is_secondary := false;
     mapq := 0; qname := "readU"; query := "ACGT"; aligned_pairs := [] |}.

Definition after_read_A : ScanState :=
  get init_state (scan_reads Sample.positions 13 init_state [Sample.read_A]).

Definition after_reads : ScanState :=
  get init_state (scan_reads Sample.positions 13 init_state Sample.reads).

(* the two clashing mates, then reads of other ids and a rejected read *)
Definition clash_then_others : list AlignedRead :=
  [Sample.clash_1] ++ Sample.clash_2 :: [Sample.read_A; Sample.flagged; Sample.mate_1].

Definition after_clash : ScanState :=
  get init_state (scan_reads Sample.positions 13 init_state clash_then_others).

Definition after_A_then_B : ScanState :=
  get init_state (scan_reads Sample.positions 13 after_read_A [Sample.read_B]).

Definition entry_at_4 : gmap string ascii :=
  default ∅ (pos_overlap after_reads !! 4).

Definition entry_of_A_at_4 : gmap string ascii :=
  default ∅ (pos_overlap after_read_A !! 4).

(* two reads that cover one requested position each, under different ids *)
Definition disjoint_run : Run :=
  get {| run_state := init_state; run_overlapping_all := ∅; run_counts := ∅ |}
    (joined_counts_run (Sample.store [Sample.read_B; Sample.mate_2]) "chr1"
       Sample.positions 13).

(* a command line with a position 0, which is not a one-based position *)
Definition zero_position : Args := Sample.args [0; 12].

Definition after_B_mate_2 : ScanState :=
  get init_state
    (scan_reads Sample.positions 13 init_state [Sample.read_B; Sample.mate_2]).

Definition after_B : ScanState :=
  get init_state (scan_reads Sample.positions 13 init_state [Sample.read_B]).



End Cases.

(** * Properties *)

(** ** The scenarios of the specification *)

Example scenario_two_reads :
  table (joined_counts (Sample.store [Sample.read_A; Sample.read_B]) "chr1"
           Sample.positions 13)
  = Ok [("AC"%string, 1)].
Proof. vm_compute. reflexivity. Qed.

Example scenario_mates :
  table (joined_counts (Sample.store [Sample.mate_1; Sample.mate_2]) "chr1"
           Sample.positions 13)
  = Ok [("GT"%string, 1)].
Proof. vm_compute. reflexivity. Qed.

(** ** Reasoning about [result] *)

Lemma bind_Ok_inv {A B : Type} (r : result A) (f : A → result B) (b : B) :
  r ≫= f = Ok b → ∃ a, r = Ok a ∧ f a = Ok b.
Proof. destruct r as [a|e]; simpl; [eauto | discriminate]. Qed.

Lemma bind_Ok {A B : Type} (r : result A) (f : A → result B) (a : A) :
  r = Ok a → r ≫= f = f a.
Proof. intros ->. reflexivity. Qed.

Lemma bind_Raise {A B : Type} (r : result A) (f : A → result B) (e : exn) :
  r = Raise e → r ≫= f = Raise e.
Proof. intros ->. reflexivity. Qed.

Ltac bind_inv H :=
  let a := fresh "a" in
  let Ha := fresh "H" a in
  apply bind_Ok_inv in H as (a & Ha & H).

(** ** The filter chain (lines 113-133) *)

Lemma process_read_accepted positions min_mq st r :
  is_unmapped r = false → passes_filters min_mq r = true →
  process_read positions min_mq st r =
    (m ← pos_nt_map r;
     id ← read_id_base (qname r);
     Ok (set_pos_overlap st (record_positions positions id m (pos_overlap st)))).
Proof.
  unfold passes_filters, process_read. intros -> Hp.
  destruct (is_duplicate r); [discriminate|].
  destruct (is_paired r && negb (is_proper_pair r)); [discriminate|].
  destruct (is_qcfail r); [discriminate|].
  destruct (is_secondary r); [discriminate|].
  destruct (mapq r <? min_mq); [discriminate|].
  reflexivity.
Qed.

(** C2. The rejection checks run in the order duplicate, anomalous pair
    (paired and not proper pair), qc-fail, secondary, mapping quality below
    [min_mq]; the first one that fires adds one to its own counter and
    nothing else changes, so a read moves at most one counter, by one. *)
Theorem rejection_precedence positions min_mq st r :
  is_unmapped r = false →
  (is_duplicate r = true →
     ∃ st', process_read positions min_mq st r = Ok st' ∧ bumps st st' [1; 0; 0; 0; 0])
  ∧ (is_duplicate r = false →
     is_paired r && negb (is_proper_pair r) = true →
     ∃ st', process_read positions min_mq st r = Ok st' ∧ bumps st st' [0; 1; 0; 0; 0])
  ∧ (is_duplicate r = false →
     is_paired r && negb (is_proper_pair r) = false →
     is_qcfail r = true →
     ∃ st', process_read positions min_mq st r = Ok st' ∧ bumps st st' [0; 0; 1; 0; 0])
  ∧ (is_duplicate r = false →
     is_paired r && negb (is_proper_pair r) = false →
     is_qcfail r = false →
     is_secondary r = true →
     ∃ st', process_read positions min_mq st r = Ok st' ∧ bumps st st' [0; 0; 0; 1; 0])
  ∧ (is_duplicate r = false →
     is_paired r && negb (is_proper_pair r) = false →
     is_qcfail r = false →
     is_secondary r = false →
     mapq r < min_mq →
     ∃ st', process_read positions min_mq st r = Ok st' ∧ bumps st st' [0; 0; 0; 0; 1])
  ∧ (∀ st', process_read positions min_mq st r = Ok st' →
     ∃ delta,
       delta ∈ [[1; 0; 0; 0; 0]; [0; 1; 0; 0; 0]; [0; 0; 1; 0; 0];
                [0; 0; 0; 1; 0]; [0; 0; 0; 0; 1]; [0; 0; 0; 0; 0]]
       ∧ counters st' = zip_with Z.add (counters st) delta).
Proof.
  intros Hm. unfold process_read, bumps, counters. rewrite Hm. simpl.
  repeat split.
  - intros ->. eexists; repeat split; simpl; by rewrite ?Z.add_0_r.
  - intros -> ->. eexists; repeat split; simpl; by rewrite ?Z.add_0_r.
  - intros -> -> ->. eexists; repeat split; simpl; by rewrite ?Z.add_0_r.
  - intros -> -> -> ->. eexists; repeat split; simpl; by rewrite ?Z.add_0_r.
  - intros -> -> -> -> Hq. apply Z.ltb_lt in Hq. rewrite Hq.
    eexists; repeat split; simpl; by rewrite ?Z.add_0_r.
  - intros st'.
    destruct (is_duplicate r);
      [|destruct (is_paired r && negb (is_proper_pair r));
        [|destruct (is_qcfail r);
          [|destruct (is_secondary r);
            [|destruct (mapq r <? min_mq)]]]].
    1-5: intros [= <-]; simpl.
    + exists [1; 0; 0; 0; 0]. split; [set_solver|]. by rewrite ?Z.add_0_r.
    + exists [0; 1; 0; 0; 0]. split; [set_solver|]. by rewrite ?Z.add_0_r.
    + exists [0; 0; 1; 0; 0]. split; [set_solver|]. by rewrite ?Z.add_0_r.
    + exists [0; 0; 0; 1; 0]. split; [set_solver|]. by rewrite ?Z.add_0_r.
    + exists [0; 0; 0; 0; 1]. split; [set_solver|]. by rewrite ?Z.add_0_r.
    + intros H. bind_inv H. bind_inv H. injection H as <-. simpl.
      exists [0; 0; 0; 0; 0]. split; [set_solver|]. by rewrite ?Z.add_0_r.
Qed.

Lemma rejection_precedence_witness :
  is_unmapped Sample.flagged = false
  ∧ ∃ st', process_read Sample.positions 13 init_state Sample.flagged = Ok st'
           ∧ bumps init_state st' [1; 0; 0; 0; 0].
Proof.
  split; [reflexivity|].
  exact (proj1 (rejection_precedence Sample.positions 13 init_state Sample.flagged
                  eq_refl) eq_refl).
Defined.

(** ** Python strings *)

Lemma string_length_app (s t : string) :
  String.length (s ++ t) = (String.length s + String.length t)%nat.
Proof. induction s as [|a s IH]; simpl; [reflexivity | by rewrite IH]. Qed.

Lemma string_get_app_length (pre : string) (c : ascii) (rest : string) :
  String.get (String.length pre) (pre ++ String c rest) = Some c.
Proof. induction pre as [|a pre IH]; simpl; [reflexivity | exact IH]. Qed.

Lemma string_substring_app_length (pre rest : string) :
  String.substring 0 (String.length pre) (pre ++ rest) = pre.
Proof.
  induction pre as [|a pre IH]; simpl; [by destruct rest | by rewrite IH].
Qed.

Lemma string_split_last_two (s : string) :
  (2 ≤ String.length s)%nat →
  ∃ pre c d, s = (pre ++ String c (String d EmptyString))%string.
Proof.
  induction s as [|a s IH]; simpl; [lia|]. intros Hlen.
  destruct s as [|b s].
  - simpl in Hlen. lia.
  - destruct s as [|b' s].
    + exists EmptyString, a, b. reflexivity.
    + destruct IH as (pre & c & d & Heq); [simpl; lia|].
      exists (String a pre), c, d. simpl. by rewrite Heq.
Qed.

Lemma getitem_in_range (s : string) (i : Z) :
  0 ≤ i < Py.len s → ∃ c, Py.getitem s i = Ok c.
Proof.
  intros Hi. unfold Py.getitem.
  destruct (i <? 0) eqn:Hneg; [apply Z.ltb_lt in Hneg; lia|].
  destruct (i <? 0) eqn:Hneg'; [discriminate|]. simpl.
  destruct (Py.len s <=? i) eqn:Hle; [apply Z.leb_le in Hle; lia|].
  destruct (String.get (Z.to_nat i) s) as [c|] eqn:Hget; [eauto|].
  exfalso. revert Hget. clear -Hi. unfold Py.len in Hi.
  assert (Hn : (Z.to_nat i < String.length s)%nat) by lia.
  revert Hn. generalize (Z.to_nat i). clear.
  induction s as [|a s IH]; simpl; intros n Hn; [lia|].
  destruct n; [discriminate|]. apply IH. lia.
Qed.

Lemma getitem_second_last (pre : string) (c d : ascii) :
  Py.getitem (pre ++ String c (String d EmptyString)) (-2) = Ok c.
Proof.
  unfold Py.getitem, Py.len. rewrite string_length_app. simpl.
  replace (-2 + Z.of_nat (String.length pre + 2)) with (Z.of_nat (String.length pre)) by lia.
  destruct (Z.of_nat (String.length pre) <? 0) eqn:H1; [apply Z.ltb_lt in H1; lia|].
  destruct (Z.of_nat (String.length pre + 2) <=? Z.of_nat (String.length pre)) eqn:H2;
    [apply Z.leb_le in H2; lia|].
  simpl. rewrite Nat2Z.id. by rewrite string_get_app_length.
Qed.

Lemma slice_to_second_last (pre : string) (c d : ascii) :
  Py.slice_to (pre ++ String c (String d EmptyString)) (-2) = pre.
Proof.
  unfold Py.slice_to, Py.len. rewrite string_length_app. simpl.
  replace (Z.to_nat (Z.max 0 (-2 + Z.of_nat (String.length pre + 2))))
    with (String.length pre) by lia.
  apply string_substring_app_length.
Qed.

Lemma getitem_short (s : string) :
  (String.length s < 2)%nat → Py.getitem s (-2) = Raise IndexError.
Proof.
  intros Hlen. unfold Py.getitem, Py.len. simpl.
  destruct (-2 + Z.of_nat (String.length s) <? 0) eqn:H1; [reflexivity|].
  apply Z.ltb_ge in H1. lia.
Qed.

Lemma is_mate_separator_spec (c : ascii) :
  is_mate_separator c = true ↔ c ∈ mate_separators.
Proof.
  unfold is_mate_separator, mate_separators.
  rewrite !orb_true_iff, !bool_decide_eq_true, !elem_of_cons, elem_of_nil.
  tauto.
Qed.

(** ** The read id (lines 147-150) *)

Lemma logical_id_spec_app (pre : string) (c d : ascii) :
  logical_id_spec (pre ++ String c (String d EmptyString))
  = if bool_decide (c ∈ mate_separators) then pre
    else (pre ++ String c (String d EmptyString))%string.
Proof.
  unfold logical_id_spec.
  assert (Hl : ∀ s t, list_ascii_of_string (s ++ t)
                      = list_ascii_of_string s ++ list_ascii_of_string t).
  { intros s t. induction s as [|a s IH]; simpl; [reflexivity | by rewrite IH]. }
  rewrite Hl. simpl. rewrite rev_app_distr. simpl.
  by rewrite rev_involutive, string_of_list_ascii_of_string.
Qed.

(** C4, as the specification states it, fails on a one-character name: the
    character two before the end does not exist, the specification then
    asks for the name unchanged, and line 147 raises [IndexError]. *)
Lemma read_id_base_one_char_name :
  logical_id_spec "a" = "a"%string
  ∧ read_id_base "a" = Raise IndexError
  ∧ read_id_base "a" ≠ Ok (logical_id_spec "a").
Proof. repeat split. discriminate. Qed.

(** C4, amended. For every query name of at least two characters, the read
    id is the name without its last two characters when the character two
    before the end is one of [.], [/], [#], and the whole name otherwise. *)
Theorem read_id_base_strips_mate_suffix (name : string) :
  (2 ≤ String.length name)%nat →
  ∃ pre c d,
    name = (pre ++ String c (String d EmptyString))%string
    ∧ (c ∈ mate_separators → read_id_base name = Ok pre)
    ∧ (c ∉ mate_separators → read_id_base name = Ok name)
    ∧ read_id_base name = Ok (logical_id_spec name).
Proof.
  intros Hlen. destruct (string_split_last_two name Hlen) as (pre & c & d & ->).
  exists pre, c, d. split; [reflexivity|].
  unfold read_id_base. rewrite getitem_second_last. simpl.
  rewrite slice_to_second_last, logical_id_spec_app.
  destruct (is_mate_separator c) eqn:Hsep.
  - apply is_mate_separator_spec in Hsep.
    rewrite bool_decide_eq_true_2 by done. by repeat split.
  - assert (Hn : c ∉ mate_separators)
      by (rewrite <- is_mate_separator_spec; congruence).
    rewrite bool_decide_eq_false_2 by done. by repeat split.
Qed.

Lemma read_id_base_strips_mate_suffix_witness :
  (2 ≤ String.length "pair7/1")%nat
  ∧ ∃ pre c d,
      "pair7/1"%string = (pre ++ String c (String d EmptyString))%string
      ∧ (c ∈ mate_separators → read_id_base "pair7/1" = Ok pre)
      ∧ (c ∉ mate_separators → read_id_base "pair7/1" = Ok "pair7/1"%string)
      ∧ read_id_base "pair7/1" = Ok (logical_id_spec "pair7/1").
Proof.
  split; [simpl; lia|].
  apply (read_id_base_strips_mate_suffix "pair7/1"). simpl. lia.
Defined.

Example read_id_base_mates :
  read_id_base "pair7/1" = Ok "pair7"%string
  ∧ read_id_base "pair7/2" = Ok "pair7"%string
  ∧ read_id_base "readA" = Ok "readA"%string.
Proof. by repeat split. Qed.

(** C10. The read id is computed for every query name of length at least
    two; on a name of length zero or one, line 147 raises [IndexError]. *)
Theorem read_id_base_total_from_two (name : string) :
  ((String.length name < 2)%nat ∧ read_id_base name = Raise IndexError)
  ∨ ((2 ≤ String.length name)%nat ∧ ∃ id, read_id_base name = Ok id).
Proof.
  destruct (le_lt_dec 2 (String.length name)) as [Hge|Hlt].
  - right. split; [done|].
    destruct (string_split_last_two name Hge) as (pre & c & d & ->).
    unfold read_id_base. rewrite getitem_second_last. simpl.
    destruct (is_mate_separator c); eauto.
  - left. split; [done|].
    unfold read_id_base. by rewrite getitem_short.
Qed.

(** ** The map from reference position to base (lines 138-140) *)

Section dict_of_pairs.
Context `{Countable K} {V : Type}.
Implicit Types (d : gmap K V) (l : list (K * V)).

Let ins := λ d (kv : K * V), <[kv.1 := kv.2]> d.

Lemma dict_fold_lookup_notin l d k :
  (∀ v, (k, v) ∉ l) → foldl ins d l !! k = d !! k.
Proof.
  revert d. induction l as [|[k' v'] l IH]; intros d Hnot; simpl; [done|].
  rewrite IH.
  - unfold ins. simpl. apply lookup_insert_ne. intros ->.
    apply (Hnot v'). left.
  - intros v Hin. apply (Hnot v). by right.
Qed.

Lemma dict_fold_lookup_last pre post d k v :
  (∀ v', (k, v') ∉ post) → foldl ins d (pre ++ (k, v) :: post) !! k = Some v.
Proof.
  intros Hnot. rewrite foldl_app. simpl.
  rewrite dict_fold_lookup_notin by done.
  unfold ins at 1. simpl. apply lookup_insert_eq.
Qed.

Lemma dict_fold_lookup_Some l d k v :
  foldl ins d l !! k = Some v → (k, v) ∈ l ∨ d !! k = Some v.
Proof.
  revert d. induction l as [|[k' v'] l IH]; intros d; simpl; [by right|].
  intros [Hin|Hd]%IH.
  - left. by right.
  - unfold ins in Hd. simpl in Hd.
    destruct (decide (k' = k)) as [->|Hne].
    + rewrite lookup_insert_eq in Hd. injection Hd as ->. left. left.
    + rewrite lookup_insert_ne in Hd by done. by right.
Qed.

Lemma dict_fold_lookup_keeps l d k :
  is_Some (d !! k) → is_Some (foldl ins d l !! k).
Proof.
  revert d. induction l as [|[k' v'] l IH]; intros d Hd; simpl; [done|].
  apply IH. unfold ins. simpl. rewrite lookup_insert.
  by case_decide.
Qed.

Lemma dict_fold_lookup_is_Some l d k v :
  (k, v) ∈ l → is_Some (foldl ins d l !! k).
Proof.
  revert d. induction l as [|[k' v'] l IH]; intros d; [by intros ?%elem_of_nil|].
  intros [[= -> ->]|Hin]%elem_of_cons; simpl; [|by apply IH].
  apply dict_fold_lookup_keeps. unfold ins. simpl.
  rewrite lookup_insert_eq. by eexists.
Qed.

Lemma dict_of_pairs_last (pre post : list (K * V)) k v :
  (∀ v', (k, v') ∉ post) →
  Py.dict_of_pairs (pre ++ (k, v) :: post) !! k = Some v.
Proof. apply dict_fold_lookup_last. Qed.

Lemma dict_of_pairs_is_Some l k v :
  (k, v) ∈ l → is_Some (Py.dict_of_pairs l !! k).
Proof. apply dict_fold_lookup_is_Some. Qed.

Lemma dict_of_pairs_Some l k v :
  Py.dict_of_pairs l !! k = Some v → (k, v) ∈ l.
Proof.
  intros [Hin|Hd]%dict_fold_lookup_Some; [done|].
  by rewrite lookup_empty in Hd.
Qed.
End dict_of_pairs.

Lemma pos_nt_pairs_elem q pairs l rpos b :
  pos_nt_pairs q pairs = Ok l →
  (rpos, b) ∈ l ↔ ∃ qpos, (Some qpos, Some rpos) ∈ pairs ∧ Py.getitem q qpos = Ok b.
Proof.
  revert l. induction pairs as [|[[qp|] [rp|]] pairs IH]; intros l Hl; simpl in Hl.
  - injection Hl as <-. split; [by intros ?%elem_of_nil|].
    by intros (? & ?%elem_of_nil & _).
  - bind_inv Hl. bind_inv Hl. injection Hl as <-.
    rewrite elem_of_cons, (IH _ Ha0). split.
    + intros [[= -> ->]|(qpos & Hin & Hg)].
      * exists qp. split; [left|done].
      * exists qpos. split; [by right|done].
    + intros (qpos & [[= -> ->]|Hin]%elem_of_cons & Hg).
      * left. congruence.
      * right. eauto.
  - rewrite (IH _ Hl). split.
    + intros (qpos & Hin & Hg). exists qpos. split; [by right|done].
    + intros (qpos & [?|Hin]%elem_of_cons & Hg); [done|eauto].
  - rewrite (IH _ Hl). split.
    + intros (qpos & Hin & Hg). exists qpos. split; [by right|done].
    + intros (qpos & [?|Hin]%elem_of_cons & Hg); [done|eauto].
  - rewrite (IH _ Hl). split.
    + intros (qpos & Hin & Hg). exists qpos. split; [by right|done].
    + intros (qpos & [?|Hin]%elem_of_cons & Hg); [done|eauto].
Qed.

Lemma pos_nt_pairs_app q pre post l :
  pos_nt_pairs q (pre ++ post) = Ok l →
  ∃ l1 l2, pos_nt_pairs q pre = Ok l1 ∧ pos_nt_pairs q post = Ok l2 ∧ l = l1 ++ l2.
Proof.
  revert l. induction pre as [|[[qp|] [rp|]] pre IH]; intros l Hl; simpl in *;
    try (by apply IH).
  - by exists [], l.
  - bind_inv Hl. bind_inv Hl. injection Hl as <-.
    destruct (IH _ Ha0) as (l1 & l2 & -> & -> & ->).
    rewrite Ha. simpl. by exists ((rp, a) :: l1), l2.
Qed.

Lemma pos_nt_pairs_total q pairs :
  (∀ qpos rpos, (Some qpos, Some rpos) ∈ pairs → 0 ≤ qpos < Py.len q) →
  ∃ l, pos_nt_pairs q pairs = Ok l.
Proof.
  induction pairs as [|[[qp|] [rp|]] pairs IH]; intros Hr; simpl.
  - by eexists.
  - destruct (getitem_in_range q qp) as [c ->]; [apply (Hr qp rp); left|].
    destruct IH as [l ->]; [intros ?? Hin; eapply Hr; by right|].
    simpl. by eexists.
  - apply IH. intros ?? Hin; eapply Hr; by right.
  - apply IH. intros ?? Hin; eapply Hr; by right.
  - apply IH. intros ?? Hin; eapply Hr; by right.
Qed.

(** C3. For a read whose query offsets lie inside its query, the map from
    reference position to base is built, and it holds exactly the aligned
    pairs with both offsets present: a position is in the map only through
    such a pair, every such pair puts its position in the map, and the base
    stored is the one of the last such pair for that position. Offset 0 is
    an offset like any other: a pair at reference offset 0 records a base
    for position 0, and a pair at query offset 0 records the first base. *)
Theorem pos_nt_map_keeps_defined_pairs (r : AlignedRead) :
  offsets_in_query r →
  ∃ m, pos_nt_map r = Ok m
    ∧ (∀ rpos b, m !! rpos = Some b →
         ∃ qpos, (Some qpos, Some rpos) ∈ aligned_pairs r
                 ∧ Py.getitem (query r) qpos = Ok b)
    ∧ (∀ qpos rpos, (Some qpos, Some rpos) ∈ aligned_pairs r → is_Some (m !! rpos))
    ∧ (∀ pre qpos rpos post,
         aligned_pairs r = pre ++ (Some qpos, Some rpos) :: post →
         (∀ q', (Some q', Some rpos) ∉ post) →
         ∃ b, Py.getitem (query r) qpos = Ok b ∧ m !! rpos = Some b)
    ∧ (∀ pre qpos post,
         aligned_pairs r = pre ++ (Some qpos, Some 0) :: post →
         (∀ q', (Some q', Some 0) ∉ post) →
         ∃ b, String.get (Z.to_nat qpos) (query r) = Some b ∧ m !! 0 = Some b)
    ∧ (∀ pre rpos post,
         aligned_pairs r = pre ++ (Some 0, Some rpos) :: post →
         (∀ q', (Some q', Some rpos) ∉ post) →
         ∃ b, String.get 0 (query r) = Some b ∧ m !! rpos = Some b).
Proof.
  intros Hr. unfold pos_nt_map.
  destruct (pos_nt_pairs_total _ _ Hr) as [l Hl]. rewrite Hl. simpl.
  eexists. split; [reflexivity|].
  assert (Hlast : ∀ pre qpos rpos post,
             aligned_pairs r = pre ++ (Some qpos, Some rpos) :: post →
             (∀ q', (Some q', Some rpos) ∉ post) →
             ∃ b, Py.getitem (query r) qpos = Ok b
                  ∧ Py.dict_of_pairs l !! rpos = Some b).
  { intros pre qpos rpos post Heq Hnot. rewrite Heq in Hl.
    apply pos_nt_pairs_app in Hl as (l1 & l2 & Hl1 & Hl2 & ->).
    simpl in Hl2. bind_inv Hl2. bind_inv Hl2. injection Hl2 as <-.
    exists a. split; [done|]. apply dict_of_pairs_last.
    intros v' Hin. apply (pos_nt_pairs_elem _ _ _ _ _ Ha0) in Hin as (q' & Hin & _).
    by apply (Hnot q'). }
  assert (Hget : ∀ qpos b, 0 ≤ qpos → Py.getitem (query r) qpos = Ok b →
                           String.get (Z.to_nat qpos) (query r) = Some b).
  { intros qpos b Hq. unfold Py.getitem.
    destruct (qpos <? 0) eqn:Hneg; [apply Z.ltb_lt in Hneg; lia|].
    destruct (_ || _); [discriminate|].
    destruct (String.get _ _); [congruence | discriminate]. }
  repeat split.
  - intros rpos b Hm. apply dict_of_pairs_Some in Hm.
    by apply (pos_nt_pairs_elem _ _ _ _ _ Hl).
  - intros qpos rpos Hin.
    destruct (getitem_in_range (query r) qpos) as [b Hb]; [by eapply Hr|].
    apply (dict_of_pairs_is_Some _ _ b).
    apply (pos_nt_pairs_elem _ _ _ _ _ Hl). eauto.
  - apply Hlast.
  - intros pre qpos post Heq Hnot.
    destruct (Hlast _ _ _ _ Heq Hnot) as (b & Hb & Hm).
    exists b. split; [|done]. apply Hget; [|done].
    apply (Hr qpos 0). rewrite Heq. apply elem_of_app. right. left.
  - intros pre rpos post Heq Hnot.
    destruct (Hlast _ _ _ _ Heq Hnot) as (b & Hb & Hm).
    exists b. split; [|done]. by apply (Hget 0 b).
Qed.

Lemma pos_nt_map_keeps_defined_pairs_witness :
  offsets_in_query Sample.at_origin
  ∧ ∃ m, pos_nt_map Sample.at_origin = Ok m
         ∧ m !! 0 = Some "A"%char ∧ m !! 1 = None ∧ m !! 2 = Some "G"%char.
Proof.
  assert (Hr : offsets_in_query Sample.at_origin).
  { intros qpos rpos Hin. unfold Py.len. simpl in *.
    repeat (apply elem_of_cons in Hin as [Heq|Hin];
            [try discriminate; injection Heq as -> ->; lia|]).
    by apply elem_of_nil in Hin. }
  split; [exact Hr|].
  destruct (pos_nt_map_keeps_defined_pairs Sample.at_origin Hr)
    as (m & Hm & _ & _ & _ & _ & _).
  exists m. split; [exact Hm|].
  injection Hm as <-. by vm_compute.
Defined.

(** ** Recording observations (lines 154-158) *)

Lemma record_pos_observed_written id m po pos b :
  m !! pos = Some b → observed (record_pos id m po pos) pos id = Some b.
Proof.
  intros Hm. unfold observed, record_pos. rewrite Hm, lookup_insert_eq. simpl.
  apply lookup_insert_eq.
Qed.

Lemma record_pos_observed_kept id m po pos p' b :
  m !! pos = Some b → observed po pos id = Some b →
  observed (record_pos id m po p') pos id = Some b.
Proof.
  intros Hm Hobs. destruct (decide (p' = pos)) as [->|Hne].
  - by apply record_pos_observed_written.
  - unfold record_pos. destruct (m !! p'); [|done].
    unfold observed. by rewrite lookup_insert_ne.
Qed.

Lemma record_positions_observed_kept positions id m po pos b :
  m !! pos = Some b → observed po pos id = Some b →
  observed (record_positions positions id m po) pos id = Some b.
Proof.
  intros Hm. unfold record_positions. revert po.
  induction positions as [|p' ps IH]; intros po Hobs; simpl; [done|].
  apply IH. by apply record_pos_observed_kept.
Qed.

Lemma record_positions_observed positions id m po pos b :
  pos ∈ positions → m !! pos = Some b →
  observed (record_positions positions id m po) pos id = Some b.
Proof.
  intros Hin Hm. revert po.
  induction positions as [|p' ps IH]; intros po; [by apply elem_of_nil in Hin|].
  apply elem_of_cons in Hin as [->|Hin].
  - apply (record_positions_observed_kept ps); [done|].
    by apply record_pos_observed_written.
  - by apply (IH Hin).
Qed.

Lemma scan_reads_app positions min_mq st reads1 reads2 :
  scan_reads positions min_mq st (reads1 ++ reads2)
  = (st' ← scan_reads positions min_mq st reads1;
     scan_reads positions min_mq st' reads2).
Proof.
  revert st. induction reads1 as [|r reads1 IH]; intros st; simpl; [done|].
  destruct (process_read positions min_mq st r) as [st'|e]; simpl; [apply IH|done].
Qed.

(** An accepted read that has a base at a requested position writes it,
    whatever the state held there before. *)
Lemma process_read_writes positions min_mq st r m id pos b :
  is_unmapped r = false → passes_filters min_mq r = true →
  pos_nt_map r = Ok m → read_id_base (qname r) = Ok id →
  pos ∈ positions → m !! pos = Some b →
  ∃ st', process_read positions min_mq st r = Ok st'
         ∧ observed (pos_overlap st') pos id = Some b.
Proof.
  intros Hu Hp Hm Hid Hin Hb.
  rewrite process_read_accepted, Hm, Hid by done. simpl.
  eexists. split; [reflexivity|]. simpl. by apply record_positions_observed.
Qed.

(** C5. When two accepted reads with the same read id both have a base at
    a requested position, the scan goes through both without raising, the
    earlier base is recorded first, and after the later read the observer
    map holds the later base for that position and read id. *)
Theorem later_write_wins positions min_mq st r1 mid r2 m1 m2 id pos b1 b2 st_mid :
  is_unmapped r1 = false → passes_filters min_mq r1 = true →
  pos_nt_map r1 = Ok m1 → read_id_base (qname r1) = Ok id →
  is_unmapped r2 = false → passes_filters min_mq r2 = true →
  pos_nt_map r2 = Ok m2 → read_id_base (qname r2) = Ok id →
  pos ∈ positions → m1 !! pos = Some b1 → m2 !! pos = Some b2 →
  scan_reads positions min_mq st (r1 :: mid) = Ok st_mid →
  ∃ st1 st2,
    process_read positions min_mq st r1 = Ok st1
    ∧ observed (pos_overlap st1) pos id = Some b1
    ∧ scan_reads positions min_mq st (r1 :: mid ++ [r2]) = Ok st2
    ∧ observed (pos_overlap st2) pos id = Some b2.
Proof.
  intros Hu1 Hp1 Hm1 Hid1 Hu2 Hp2 Hm2 Hid2 Hin Hb1 Hb2 Hscan.
  destruct (process_read_writes positions min_mq st r1 m1 id pos b1)
    as (st1 & Hst1 & Hobs1); [done..|].
  destruct (process_read_writes positions min_mq st_mid r2 m2 id pos b2)
    as (st2 & Hst2 & Hobs2); [done..|].
  exists st1, st2. repeat split; [done..| |done].
  change (r1 :: mid ++ [r2]) with ((r1 :: mid) ++ [r2]).
  rewrite scan_reads_app, Hscan. simpl. by rewrite Hst2.
Qed.

Lemma later_write_wins_witness :
  ∃ st1 st2,
    process_read Sample.positions 13 init_state Sample.clash_1 = Ok st1
    ∧ observed (pos_overlap st1) 4 "pair9" = Some "G"%char
    ∧ scan_reads Sample.positions 13 init_state
        (Sample.clash_1 :: [Sample.read_A] ++ [Sample.clash_2]) = Ok st2
    ∧ observed (pos_overlap st2) 4 "pair9" = Some "T"%char.
Proof.
  destruct (scan_reads Sample.positions 13 init_state [Sample.clash_1; Sample.read_A])
    as [st_mid|e] eqn:Hscan; [|by vm_compute in Hscan].
  apply (later_write_wins Sample.positions 13 init_state
           Sample.clash_1 [Sample.read_A] Sample.clash_2
           (Py.dict_of_pairs [(4, "G"%char); (5, "C"%char)])
           (Py.dict_of_pairs [(3, "A"%char); (4, "T"%char)])
           "pair9" 4 "G"%char "T"%char st_mid);
    try reflexivity; try exact Hscan.
  by left.
Defined.

(** ** The intersection (lines 160-165) *)

Lemma intersect_rest_spec po acc rest ids :
  intersect_rest po acc rest = Ok ids →
  ids ⊆ acc
  ∧ (∀ p, p ∈ rest → ∃ d, po !! p = Some d ∧ ids ⊆ dom d)
  ∧ (∀ id, id ∈ acc → (∀ p, p ∈ rest → is_Some (observed po p id)) → id ∈ ids).
Proof.
  revert acc. induction rest as [|p rest IH]; intros acc Hr; simpl in Hr.
  - injection Hr as <-. split; [done|]. split; [|done].
    by intros p ?%elem_of_nil.
  - bind_inv Hr. unfold Py.dict_getitem in Ha.
    destruct (po !! p) as [d|] eqn:Hd; [injection Ha as ->|discriminate].
    destruct (IH _ Hr) as (Hsub & Hall & Hmem). split; [|split].
    + etrans; [exact Hsub | apply intersection_subseteq_l].
    + intros p' [->|Hin]%elem_of_cons; [|by apply Hall].
      exists a. split; [done|].
      etrans; [exact Hsub | apply intersection_subseteq_r].
    + intros id Hacc Hobs. apply Hmem.
      * apply elem_of_intersection. split; [done|].
        destruct (Hobs p) as [b Hb]; [left|].
        unfold observed in Hb. rewrite Hd in Hb. simpl in Hb.
        apply elem_of_dom. by eexists.
      * intros p' Hin. apply Hobs. by right.
Qed.

Lemma intersect_rest_total po acc rest :
  (∀ p, p ∈ rest → is_Some (po !! p)) → ∃ ids, intersect_rest po acc rest = Ok ids.
Proof.
  revert acc. induction rest as [|p rest IH]; intros acc Hall; simpl; [by eexists|].
  destruct (Hall p) as [d Hd]; [left|]. unfold Py.dict_getitem. rewrite Hd. simpl.
  apply IH. intros p' Hin. apply Hall. by right.
Qed.

Lemma intersect_rest_missing po acc rest p :
  p ∈ rest → po !! p = None → intersect_rest po acc rest = Raise KeyError.
Proof.
  intros Hin Hnone. revert acc.
  induction rest as [|p' rest IH]; intros acc; [by apply elem_of_nil in Hin|].
  simpl. unfold Py.dict_getitem.
  destruct (po !! p') as [d|] eqn:Hd; simpl; [|done].
  apply elem_of_cons in Hin as [->|Hin]; [congruence | by apply IH].
Qed.

(** A requested position without an entry in [pos_overlap] makes lines
    161-164 raise [KeyError]. *)
Lemma overlapping_all_missing positions po p :
  p ∈ positions → po !! p = None → overlapping_all positions po = Raise KeyError.
Proof.
  intros Hin Hnone. destruct positions as [|p0 ps]; [by apply elem_of_nil in Hin|].
  unfold overlapping_all. simpl. unfold Py.dict_getitem.
  destruct (po !! p0) as [d|] eqn:Hd; simpl; [|done].
  apply elem_of_cons in Hin as [->|Hin]; [congruence|].
  by apply (intersect_rest_missing _ _ _ p).
Qed.

Lemma overlapping_all_spec positions po ids :
  overlapping_all positions po = Ok ids →
  (∀ p, p ∈ positions → ∃ d, po !! p = Some d ∧ ids ⊆ dom d)
  ∧ (∀ id, id ∈ ids ↔ positions ≠ [] ∧ ∀ p, p ∈ positions → is_Some (observed po p id)).
Proof.
  unfold overlapping_all. intros Hr.
  destruct positions as [|p0 ps]; [discriminate|]. simpl in Hr.
  bind_inv Hr. unfold Py.dict_getitem in Ha.
  destruct (po !! p0) as [d0|] eqn:Hd0; [injection Ha as ->|discriminate].
  destruct (intersect_rest_spec _ _ _ _ Hr) as (Hsub & Hall & Hmem).
  assert (Hps : ∀ p, p ∈ p0 :: ps → ∃ d, po !! p = Some d ∧ ids ⊆ dom d).
  { intros p [->|Hin]%elem_of_cons; [eauto | by apply Hall]. }
  split; [exact Hps|]. intros id. split.
  - intros Hid. split; [done|]. intros p Hin.
    destruct (Hps p Hin) as (d & Hd & Hsubd).
    unfold observed. rewrite Hd. simpl. apply elem_of_dom. by apply Hsubd.
  - intros [_ Hobs]. apply Hmem.
    + destruct (Hobs p0) as [b Hb]; [left|].
      unfold observed in Hb. rewrite Hd0 in Hb. apply elem_of_dom. by eexists.
    + intros p Hin. apply Hobs. by right.
Qed.

Lemma overlapping_all_total positions po :
  positions ≠ [] → (∀ p, p ∈ positions → is_Some (po !! p)) →
  ∃ ids, overlapping_all positions po = Ok ids.
Proof.
  intros Hne Hall. destruct positions as [|p0 ps]; [done|].
  unfold overlapping_all. simpl. unfold Py.dict_getitem.
  destruct (Hall p0) as [d0 ->]; [left|]. simpl.
  apply intersect_rest_total. intros p Hin. apply Hall. by right.
Qed.

Lemma foldl_min_lower_bound (n a : nat) (l : list nat) :
  (n ≤ a)%nat → (∀ x, x ∈ l → (n ≤ x)%nat) → (n ≤ foldl Nat.min a l)%nat.
Proof.
  revert a. induction l as [|x l IH]; intros a Ha Hl; simpl; [done|].
  apply IH.
  - apply Nat.min_glb; [done|]. apply Hl. left.
  - intros y Hy. apply Hl. by right.
Qed.

(** ** The tally (lines 167-170) *)

Lemma sum_values_empty : sum_values ∅ = 0.
Proof. unfold sum_values. apply map_fold_empty. Qed.

Lemma sum_values_insert_fresh (counts : gmap string Z) key v :
  counts !! key = None → sum_values (<[key := v]> counts) = v + sum_values counts.
Proof.
  intros Hnone. unfold sum_values.
  rewrite map_fold_insert_L; [done| |done]. intros. lia.
Qed.

Lemma sum_values_increment (counts : gmap string Z) key :
  sum_values (<[key := default 0 (counts !! key) + 1]> counts) = sum_values counts + 1.
Proof.
  destruct (counts !! key) as [v|] eqn:Hk; simpl.
  - rewrite <- insert_delete_eq.
    rewrite sum_values_insert_fresh by apply lookup_delete_eq.
    rewrite <- (insert_delete_id counts key v) at 2 by done.
    rewrite sum_values_insert_fresh by apply lookup_delete_eq. lia.
  - rewrite sum_values_insert_fresh by done. lia.
Qed.

Lemma count_keys_sum po positions counts ids counts' :
  count_keys po positions counts ids = Ok counts' →
  sum_values counts' = sum_values counts + Z.of_nat (length ids).
Proof.
  revert counts. induction ids as [|id ids IH]; intros counts Hc; simpl in Hc.
  - injection Hc as <-. simpl. lia.
  - bind_inv Hc. rewrite (IH _ Hc), sum_values_increment. simpl length. lia.
Qed.

Lemma joint_bases_spec po id positions bs :
  joint_bases po id positions = Ok bs →
  Forall2 (λ p b, observed po p id = Some b) positions bs.
Proof.
  revert bs. induction positions as [|p ps IH]; intros bs Hb; simpl in Hb.
  - injection Hb as <-. constructor.
  - bind_inv Hb. bind_inv Hb. bind_inv Hb. injection Hb as <-.
    constructor; [|by apply IH].
    unfold Py.dict_getitem in Ha, Ha0. unfold observed.
    destruct (po !! p) as [d|]; [injection Ha as ->|discriminate]. simpl.
    destruct (a !! id); [congruence | discriminate].
Qed.

Lemma joint_bases_total po id positions :
  (∀ p, p ∈ positions → is_Some (observed po p id)) →
  ∃ bs, joint_bases po id positions = Ok bs.
Proof.
  induction positions as [|p ps IH]; intros Hobs; simpl; [by eexists|].
  destruct (Hobs p) as [b Hb]; [left|]. unfold observed in Hb.
  unfold Py.dict_getitem.
  destruct (po !! p) as [d|]; [|discriminate]. simpl in *. rewrite Hb. simpl.
  destruct IH as [bs ->]; [intros p' Hin; apply Hobs; by right|].
  simpl. by eexists.
Qed.

Lemma join_length (bs : list ascii) : String.length (Py.join bs) = length bs.
Proof. induction bs as [|b bs IH]; simpl; [done | by rewrite IH]. Qed.

Lemma count_keys_keys po positions counts ids counts' :
  count_keys po positions counts ids = Ok counts' →
  ∀ key, is_Some (counts' !! key) →
    is_Some (counts !! key) ∨ key_of po positions ids key.
Proof.
  revert counts. induction ids as [|id ids IH]; intros counts Hc key Hk; simpl in Hc.
  - injection Hc as <-. by left.
  - bind_inv Hc. destruct (IH _ Hc key Hk) as [Hins|(id' & bs & Hin & Hbs & ->)].
    + rewrite lookup_insert in Hins. case_decide as Heq; [|by left].
      right. subst a. unfold joint_key in Ha. bind_inv Ha. injection Ha as <-.
      exists id, a. split; [left|]. split; [by apply joint_bases_spec | done].
    + right. exists id', bs. split; [by right | done].
Qed.

Lemma count_keys_total po positions counts ids :
  (∀ id p, id ∈ ids → p ∈ positions → is_Some (observed po p id)) →
  ∃ counts', count_keys po positions counts ids = Ok counts'.
Proof.
  revert counts. induction ids as [|id ids IH]; intros counts Hobs; simpl; [by eexists|].
  destruct (joint_bases_total po id positions) as [bs Hbs].
  { intros p Hin. apply Hobs; [left | done]. }
  unfold joint_key. rewrite Hbs. simpl.
  apply IH. intros id' p Hin. apply Hobs. by right.
Qed.

(** What a completed run went through. *)
Lemma joined_counts_run_inv sam chrom positions min_mq run :
  joined_counts_run sam chrom positions min_mq = Ok run →
  (2 ≤ length positions)%nat
  ∧ ∃ lo hi reads,
      Py.min positions = Ok lo ∧ Py.max positions = Ok hi
      ∧ fetch sam chrom lo (hi + 1) = Ok reads
      ∧ scan_reads positions min_mq init_state reads = Ok (run_state run)
      ∧ overlapping_all positions (pos_overlap (run_state run))
        = Ok (run_overlapping_all run)
      ∧ count_keys (pos_overlap (run_state run)) positions ∅
          (elements (run_overlapping_all run)) = Ok (run_counts run).
Proof.
  unfold joined_counts_run. intros Hr.
  bind_inv Hr. bind_inv Hr. bind_inv Hr. bind_inv Hr. bind_inv Hr.
  bind_inv Hr. bind_inv Hr. bind_inv Hr. injection Hr as <-. simpl.
  split.
  - unfold request_ok in Ha.
    destruct (2 <=? Z.of_nat (length positions)) eqn:Hlen.
    + apply Z.leb_le in Hlen. lia.
    + injection Ha as <-. discriminate.
  - by exists a1, a2, a3.
Qed.

(** ** Size of the intersection *)

(** The intersection is no larger than any of the key sets it is taken
    from. *)
Lemma overlapping_all_bound positions po ids :
  overlapping_all positions po = Ok ids →
  (∀ p, p ∈ positions → (size ids ≤ observer_count po p)%nat)
  ∧ (size ids ≤ min_observer_count po positions)%nat.
Proof.
  intros Hids. destruct (overlapping_all_spec _ _ _ Hids) as [Hdom _].
  assert (Hle : ∀ p, p ∈ positions → (size ids ≤ observer_count po p)%nat).
  { intros p Hin. destruct (Hdom p Hin) as (d & Hd & Hsub).
    unfold observer_count. rewrite Hd. simpl.
    rewrite <- (size_dom (D := gset string)). by apply subseteq_size. }
  split; [exact Hle|].
  destruct positions as [|p0 ps]; [discriminate|]. simpl.
  apply foldl_min_lower_bound.
  - apply Hle. left.
  - intros x (p & -> & Hin)%list_elem_of_fmap. apply Hle. by right.
Qed.

(** The same bound, read off a completed run. *)
Lemma run_overlap_bound sam chrom positions min_mq run :
  joined_counts_run sam chrom positions min_mq = Ok run →
  (size (run_overlapping_all run)
   ≤ min_observer_count (pos_overlap (run_state run)) positions)%nat.
Proof.
  intros Hr.
  destruct (joined_counts_run_inv _ _ _ _ _ Hr)
    as (_ & lo & hi & reads & _ & _ & _ & _ & Hids & _).
  by apply overlapping_all_bound.
Qed.

(** C8. For a request of at least two positions that all have an observer
    map, the intersection is computed, and its size is at most the number
    of read ids recorded at each requested position, hence at most the
    minimum of these numbers. *)
Theorem overlapping_all_size_le_min positions po :
  (2 ≤ length positions)%nat →
  (∀ p, p ∈ positions → is_Some (po !! p)) →
  ∃ ids, overlapping_all positions po = Ok ids
    ∧ (∀ p, p ∈ positions → (size ids ≤ observer_count po p)%nat)
    ∧ (size ids ≤ min_observer_count po positions)%nat.
Proof.
  intros Hlen Hall.
  destruct (overlapping_all_total positions po) as [ids Hids]; [|done|].
  { intros ->. simpl in Hlen. lia. }
  exists ids. split; [done|]. by apply overlapping_all_bound.
Qed.

Lemma overlapping_all_size_le_min_witness :
  ∃ ids, overlapping_all Sample.positions Sample.scanned = Ok ids
    ∧ (∀ p, p ∈ Sample.positions → (size ids ≤ observer_count Sample.scanned p)%nat)
    ∧ (size ids ≤ min_observer_count Sample.scanned Sample.positions)%nat.
Proof.
  apply overlapping_all_size_le_min.
  - simpl. lia.
  - intros p Hin. unfold Sample.positions in Hin.
    repeat (apply elem_of_cons in Hin as [->|Hin]; [by vm_compute; eexists|]).
    by apply elem_of_nil in Hin.
Defined.

(** ** The returned table *)

(** C6. For every completed run of [joined_counts], the values of the
    returned table add up to the number of read ids in [overlapping_all]. *)
Theorem counts_sum_is_overlap_size sam chrom positions min_mq run :
  joined_counts_run sam chrom positions min_mq = Ok run →
  joined_counts sam chrom positions min_mq = Ok (run_counts run)
  ∧ sum_values (run_counts run) = Z.of_nat (size (run_overlapping_all run)).
Proof.
  intros Hr. split; [unfold joined_counts; by rewrite Hr|].
  destruct (joined_counts_run_inv _ _ _ _ _ Hr)
    as (_ & lo & hi & reads & _ & _ & _ & _ & _ & Hc).
  rewrite (count_keys_sum _ _ _ _ _ Hc), sum_values_empty. simpl.
  reflexivity.
Qed.

(** C7. Every key of the returned table has as many characters as there
    are requested positions, and is the concatenation, in request order, of
    the bases one read id of [overlapping_all] has at these positions. *)
Theorem count_keys_have_request_length sam chrom positions min_mq run key :
  joined_counts_run sam chrom positions min_mq = Ok run →
  is_Some (run_counts run !! key) →
  joined_counts sam chrom positions min_mq = Ok (run_counts run)
  ∧ String.length key = length positions
  ∧ ∃ id bs,
      id ∈ run_overlapping_all run
      ∧ Forall2 (λ p b, observed (pos_overlap (run_state run)) p id = Some b)
          positions bs
      ∧ key = Py.join bs.
Proof.
  intros Hr Hk. split; [unfold joined_counts; by rewrite Hr|].
  destruct (joined_counts_run_inv _ _ _ _ _ Hr)
    as (_ & lo & hi & reads & _ & _ & _ & _ & _ & Hc).
  destruct (count_keys_keys _ _ _ _ _ Hc key Hk) as [Hin|(id & bs & Hin & Hbs & ->)].
  { rewrite lookup_empty in Hin. by destruct Hin. }
  split.
  - rewrite join_length. symmetry. by eapply Forall2_length.
  - exists id, bs. split; [by apply elem_of_elements | done].
Qed.

Lemma sample_run_completes :
  joined_counts_run (Sample.store Sample.reads) "chr1" Sample.positions 13
  = Ok Sample.run.
Proof. by vm_compute. Qed.

Lemma counts_sum_is_overlap_size_witness :
  joined_counts (Sample.store Sample.reads) "chr1" Sample.positions 13
  = Ok (run_counts Sample.run)
  ∧ sum_values (run_counts Sample.run)
    = Z.of_nat (size (run_overlapping_all Sample.run)).
Proof.
  apply (counts_sum_is_overlap_size (Sample.store Sample.reads) "chr1"
           Sample.positions 13 Sample.run).
  by vm_compute.
Defined.

Lemma count_keys_have_request_length_witness :
  joined_counts (Sample.store Sample.reads) "chr1" Sample.positions 13
  = Ok (run_counts Sample.run)
  ∧ String.length "GT" = length Sample.positions
  ∧ ∃ id bs,
      id ∈ run_overlapping_all Sample.run
      ∧ Forall2 (λ p b, observed (pos_overlap (run_state Sample.run)) p id = Some b)
          Sample.positions bs
      ∧ "GT"%string = Py.join bs.
Proof.
  apply (count_keys_have_request_length (Sample.store Sample.reads) "chr1"
           Sample.positions 13 Sample.run "GT").
  - by vm_compute.
  - vm_compute. by eexists.
Defined.

Example sample_run_table :
  map_to_list (run_counts Sample.run) = [("GT"%string, 1); ("AC"%string, 1)]
  ∧ elements (run_overlapping_all Sample.run) = ["readA"%string; "pair7"%string].
Proof. by vm_compute. Qed.

(** A run completes as soon as the request passes line 94, the fetch and
    the scan go through and every requested position has an observer map:
    the tally itself cannot raise. *)
Lemma joined_counts_run_completes sam chrom positions min_mq lo hi reads st :
  request_ok positions = Ok true →
  Py.min positions = Ok lo → Py.max positions = Ok hi →
  fetch sam chrom lo (hi + 1) = Ok reads →
  scan_reads positions min_mq init_state reads = Ok st →
  (∀ p, p ∈ positions → is_Some (pos_overlap st !! p)) →
  ∃ run, joined_counts_run sam chrom positions min_mq = Ok run ∧ run_state run = st.
Proof.
  intros Hok Hlo Hhi Hf Hs Hall. unfold joined_counts_run.
  rewrite Hok. simpl. rewrite Hlo, Hhi. simpl. rewrite Hf. simpl. rewrite Hs. simpl.
  destruct (overlapping_all_total positions (pos_overlap st)) as [ids Hids]; [|done|].
  { intros ->. discriminate. }
  rewrite Hids. simpl.
  destruct (count_keys_total (pos_overlap st) positions ∅ (elements ids)) as [c Hc].
  { intros id p Hid Hp. apply elem_of_elements in Hid.
    by apply (overlapping_all_spec _ _ _ Hids). }
  rewrite Hc. simpl. by eexists.
Qed.

(** ** Requests the code turns down *)

(** Every entry of [pos_overlap] is created by the write of line 158, so an
    observer map is never empty: a position no accepted read covered has no
    entry at all. *)
Lemma record_pos_nonempty id m po pos :
  (∀ p d, po !! p = Some d → d ≠ ∅) →
  ∀ p d, record_pos id m po pos !! p = Some d → d ≠ ∅.
Proof.
  intros Hpo p d. unfold record_pos. destruct (m !! pos) as [b|]; [|apply Hpo].
  rewrite lookup_insert. case_decide; [|apply Hpo].
  intros [= <-]. apply insert_non_empty.
Qed.

Lemma record_positions_nonempty positions id m po :
  (∀ p d, po !! p = Some d → d ≠ ∅) →
  ∀ p d, record_positions positions id m po !! p = Some d → d ≠ ∅.
Proof.
  unfold record_positions. revert po.
  induction positions as [|pos ps IH]; intros po Hpo; simpl; [done|].
  apply IH. by apply record_pos_nonempty.
Qed.

Lemma process_read_nonempty positions min_mq st r st' :
  (∀ p d, pos_overlap st !! p = Some d → d ≠ ∅) →
  process_read positions min_mq st r = Ok st' →
  ∀ p d, pos_overlap st' !! p = Some d → d ≠ ∅.
Proof.
  intros Hpo. unfold process_read. intros H. bind_inv H.
  repeat (match type of H with (if ?c then _ else _) = _ => destruct c end;
          [by injection H as <-|]).
  bind_inv H. bind_inv H. injection H as <-. simpl.
  by apply record_positions_nonempty.
Qed.

Lemma scan_reads_nonempty positions min_mq reads st st' :
  (∀ p d, pos_overlap st !! p = Some d → d ≠ ∅) →
  scan_reads positions min_mq st reads = Ok st' →
  ∀ p d, pos_overlap st' !! p = Some d → d ≠ ∅.
Proof.
  revert st. induction reads as [|r reads IH]; intros st Hpo Hs; simpl in Hs.
  - by injection Hs as <-.
  - bind_inv Hs. eapply IH; [|done]. by eapply process_read_nonempty.
Qed.

(** Whenever the scan leaves a requested position without an entry, the
    call raises [KeyError] at lines 161-164. *)
Lemma joined_counts_uncovered sam chrom positions min_mq lo hi reads st p :
  request_ok positions = Ok true →
  Py.min positions = Ok lo → Py.max positions = Ok hi →
  fetch sam chrom lo (hi + 1) = Ok reads →
  scan_reads positions min_mq init_state reads = Ok st →
  p ∈ positions → pos_overlap st !! p = None →
  joined_counts sam chrom positions min_mq = Raise KeyError.
Proof.
  intros Hok Hlo Hhi Hf Hs Hin Hnone. unfold joined_counts, joined_counts_run.
  rewrite Hok. simpl. rewrite Hlo, Hhi. simpl. rewrite Hf. simpl. rewrite Hs. simpl.
  by rewrite (overlapping_all_missing _ _ p).
Qed.

(** C1. On the code, a requested position that no accepted read covered
    does not give an empty table: the call raises [KeyError]. Shown for a
    read that covers the first position only, for reads that all fail the
    mapping-quality filter, and for an empty fetch. *)
Theorem uncovered_position_raises :
  joined_counts (Sample.store [Sample.read_B]) "chr1" Sample.positions 13
  = Raise KeyError
  ∧ joined_counts (Sample.store [Sample.low_mq]) "chr1" Sample.positions 13
    = Raise KeyError
  ∧ joined_counts (Sample.store []) "chr1" Sample.positions 13 = Raise KeyError.
Proof. by vm_compute. Qed.

(** C9. A request of fewer than two positions is turned down at once:
    [joined_counts] raises [AssertionError] at line 94 whatever the store
    holds, before fetching or building anything, and [main] exits with
    code 1 before it opens the store. *)
Theorem short_request_rejected :
  (∀ sam chrom positions min_mq,
     (length positions < 2)%nat →
     joined_counts_run sam chrom positions min_mq = Raise AssertionError
     ∧ joined_counts sam chrom positions min_mq = Raise AssertionError)
  ∧ (∀ env args,
       (length (arg_positions args) < 2)%nat → main env args = SysExit 1).
Proof.
  split.
  - intros sam chrom positions min_mq Hlen.
    assert (Hrun : joined_counts_run sam chrom positions min_mq = Raise AssertionError).
    { unfold joined_counts_run, request_ok.
      destruct (2 <=? Z.of_nat (length positions)) eqn:Hle; [|done].
      apply Z.leb_le in Hle. lia. }
    split; [done|]. unfold joined_counts. by rewrite Hrun.
  - intros env args Hlen. unfold main.
    destruct (negb (path_exists env (arg_bam args))); [done|].
    destruct (truthy (arg_ref_fa args) && _); [done|].
    rewrite length_map.
    destruct (Z.of_nat (length (arg_positions args)) <? 2) eqn:Hlt; [done|].
    apply Z.ltb_ge in Hlt. lia.
Qed.

Lemma short_request_rejected_witness :
  (joined_counts_run Sample.no_contig "chr1" [4] 13 = Raise AssertionError
   ∧ joined_counts Sample.no_contig "chr1" [4] 13 = Raise AssertionError)
  ∧ main (Sample.env Sample.no_contig) (Sample.args [5]) = SysExit 1.
Proof.
  split.
  - apply (proj1 short_request_rejected). simpl. lia.
  - apply (proj2 short_request_rejected). simpl. lia.
Defined.

(** * Further properties of the scan *)

(** ** Bookkeeping of the filter chain *)

Lemma process_read_tally positions min_mq st r st' :
  process_read positions min_mq st r = Ok st' →
  rejected_total st' = rejected_total st + (if passes_filters min_mq r then 0 else 1)
  ∧ num_dups st' = num_dups st + (if is_duplicate r then 1 else 0).
Proof.
  unfold process_read, passes_filters, rejected_total. intros H. bind_inv H.
  destruct (is_duplicate r); [injection H as <-; simpl; lia|].
  destruct (is_paired r && negb (is_proper_pair r)); [injection H as <-; simpl; lia|].
  destruct (is_qcfail r); [injection H as <-; simpl; lia|].
  destruct (is_secondary r); [injection H as <-; simpl; lia|].
  destruct (mapq r <? min_mq); [injection H as <-; simpl; lia|].
  bind_inv H. bind_inv H. injection H as <-. simpl. lia.
Qed.

(** X1. Every fetched read is accounted for: over a scan that goes through,
    the five rejection counters together grow by the number of reads that
    fail a filter, so rejected plus accepted reads make up the fetched
    list, and [num_dups] grows by the number of reads flagged duplicate. *)
Theorem scan_accounts_for_every_read positions min_mq st reads st' :
  scan_reads positions min_mq st reads = Ok st' →
  rejected_total st' - rejected_total st + how_many (passes_filters min_mq) reads
    = Z.of_nat (length reads)
  ∧ num_dups st' = num_dups st + how_many is_duplicate reads.
Proof.
  unfold how_many. revert st.
  induction reads as [|r reads IH]; intros st Hs; simpl in Hs.
  - injection Hs as <-. simpl. lia.
  - bind_inv Hs. destruct (IH _ Hs) as [IH1 IH2].
    destruct (process_read_tally _ _ _ _ _ Ha) as [H1 H2]. simpl List.filter.
    destruct (passes_filters min_mq r), (is_duplicate r); simpl length; lia.
Qed.

Lemma scan_accounts_for_every_read_witness :
  rejected_total Cases.after_mixed - rejected_total init_state
    + how_many (passes_filters 13) Cases.mixed
    = Z.of_nat (length Cases.mixed)
  ∧ num_dups Cases.after_mixed = num_dups init_state + how_many is_duplicate Cases.mixed.
Proof.
  apply (scan_accounts_for_every_read Sample.positions 13 init_state
           Cases.mixed Cases.after_mixed).
  by vm_compute.
Defined.

(** X2. An unmapped read stops the scan with [AssertionError] (line 111)
    even when it carries a flag that would have rejected it: the assertion
    comes before the filters, and no later read is looked at. *)
Theorem unmapped_read_aborts_scan positions min_mq st pre r post st_pre :
  scan_reads positions min_mq st pre = Ok st_pre →
  is_unmapped r = true →
  scan_reads positions min_mq st (pre ++ r :: post) = Raise AssertionError.
Proof.
  intros Hpre Hu. rewrite scan_reads_app, Hpre. simpl.
  unfold process_read. by rewrite Hu.
Qed.

Lemma unmapped_read_aborts_scan_witness :
  scan_reads Sample.positions 13 init_state
    ([Sample.read_A] ++ Cases.unmapped_dup :: [Sample.read_B])
  = Raise AssertionError.
Proof.
  apply (unmapped_read_aborts_scan Sample.positions 13 init_state
           [Sample.read_A] Cases.unmapped_dup [Sample.read_B] Cases.after_read_A).
  - by vm_compute.
  - reflexivity.
Defined.

(** ** Errors of an accepted read *)








(** ** What a read changes in the observer map *)

Lemma record_pos_lookup_other id m po pos p :
  p ≠ pos ∨ m !! pos = None → record_pos id m po pos !! p = po !! p.
Proof.
  unfold record_pos. intros [Hne | ->]; [|done].
  destruct (m !! pos); [by rewrite lookup_insert_ne | done].
Qed.

Lemma record_positions_lookup_other positions id m po p :
  p ∉ positions ∨ m !! p = None → record_positions positions id m po !! p = po !! p.
Proof.
  unfold record_positions. revert po.
  induction positions as [|pos ps IH]; intros po Hp; simpl; [done|].
  rewrite IH.
  - apply record_pos_lookup_other.
    destruct Hp as [Hnin|Hnone].
    + left. intros ->. apply Hnin. left.
    + destruct (decide (p = pos)) as [->|Hne]; [by right | by left].
  - destruct Hp as [Hnin|Hnone]; [left | by right].
    intros Hin. apply Hnin. by right.
Qed.

Lemma record_pos_observed_other_id id m po pos p id' :
  id' ≠ id → observed (record_pos id m po pos) p id' = observed po p id'.
Proof.
  intros Hne. unfold record_pos, observed. destruct (m !! pos) as [b|]; [|done].
  destruct (decide (pos = p)) as [->|Hp].
  - rewrite lookup_insert_eq. simpl. rewrite lookup_insert_ne by done.
    by destruct (po !! p).
  - by rewrite lookup_insert_ne.
Qed.

Lemma record_positions_observed_other_id positions id m po p id' :
  id' ≠ id → observed (record_positions positions id m po) p id' = observed po p id'.
Proof.
  intros Hne. unfold record_positions. revert po.
  induction positions as [|pos ps IH]; intros po; simpl; [done|].
  by rewrite IH, record_pos_observed_other_id.
Qed.

(** Every way through one iteration that ends well. *)
Lemma process_read_Ok_inv positions min_mq st r st' :
  process_read positions min_mq st r = Ok st' →
  is_unmapped r = false
  ∧ ((passes_filters min_mq r = false ∧ pos_overlap st' = pos_overlap st)
     ∨ (passes_filters min_mq r = true
        ∧ ∃ m id, pos_nt_map r = Ok m ∧ read_id_base (qname r) = Ok id
            ∧ pos_overlap st' = record_positions positions id m (pos_overlap st))).
Proof.
  intros H. assert (Hu : is_unmapped r = false).
  { unfold process_read in H. by destruct (is_unmapped r). }
  split; [done|]. destruct (passes_filters min_mq r) eqn:Hp.
  - right. split; [done|]. rewrite process_read_accepted in H by done.
    bind_inv H. bind_inv H. injection H as <-. by exists a, a0.
  - left. split; [done|]. revert H Hp. unfold process_read, passes_filters.
    rewrite Hu. simpl.
    destruct (is_duplicate r); [by intros [= <-]|].
    destruct (is_paired r && negb (is_proper_pair r)); [by intros [= <-]|].
    destruct (is_qcfail r); [by intros [= <-]|].
    destruct (is_secondary r); [by intros [= <-]|].
    destruct (mapq r <? min_mq); [by intros [= <-]|]. by intros _ [=].
Qed.

(** X4. One read changes little: a read that is processed without error
    leaves untouched every position that was not requested, everything
    recorded under a read id other than its own, and, when it is rejected,
    the whole observer map. *)
Theorem process_read_frame positions min_mq st r st' :
  process_read positions min_mq st r = Ok st' →
  (∀ p, p ∉ positions → pos_overlap st' !! p = pos_overlap st !! p)
  ∧ (∀ p id', read_id_base (qname r) ≠ Ok id' →
       observed (pos_overlap st') p id' = observed (pos_overlap st) p id')
  ∧ (passes_filters min_mq r = false → pos_overlap st' = pos_overlap st).
Proof.
  intros H. apply process_read_Ok_inv in H as (_ & [[Hp ->]|(Hp & m & id & Hm & Hid & ->)]).
  - done.
  - split; [|split].
    + intros p Hnin. apply record_positions_lookup_other. by left.
    + intros p id' Hne. apply record_positions_observed_other_id. congruence.
    + congruence.
Qed.

Lemma process_read_frame_witness :
  (∀ p, p ∉ Sample.positions →
     pos_overlap Cases.after_read_A !! p = pos_overlap init_state !! p)
  ∧ (∀ p id', read_id_base (qname Sample.read_A) ≠ Ok id' →
       observed (pos_overlap Cases.after_read_A) p id'
       = observed (pos_overlap init_state) p id')
  ∧ (passes_filters 13 Sample.read_A = false →
     pos_overlap Cases.after_read_A = pos_overlap init_state).
Proof.
  apply (process_read_frame Sample.positions 13 init_state Sample.read_A
           Cases.after_read_A).
  by vm_compute.
Defined.

Lemma record_positions_observed_inv positions id m po p id' b :
  observed (record_positions positions id m po) p id' = Some b →
  observed po p id' = Some b ∨ (id' = id ∧ p ∈ positions ∧ m !! p = Some b).
Proof.
  unfold record_positions. revert po.
  induction positions as [|pos ps IH]; intros po; simpl; [by left|].
  intros [Hobs|(-> & Hin & Hm)]%IH; [|right; split; [done|]; split; [by right|done]].
  destruct (decide (id' = id)) as [->|Hne];
    [|left; by rewrite record_pos_observed_other_id in Hobs].
  unfold record_pos in Hobs. destruct (m !! pos) as [b'|] eqn:Hm; [|by left].
  destruct (decide (pos = p)) as [->|Hp].
  - unfold observed in Hobs. rewrite lookup_insert_eq in Hobs. simpl in Hobs.
    rewrite lookup_insert_eq in Hobs. injection Hobs as ->.
    right. split; [done|]. split; [left | done].
  - left. unfold observed in *. by rewrite lookup_insert_ne in Hobs.
Qed.

Lemma scan_observed_inv positions min_mq reads st st' p id b :
  scan_reads positions min_mq st reads = Ok st' →
  observed (pos_overlap st') p id = Some b →
  observed (pos_overlap st) p id = Some b
  ∨ (p ∈ positions ∧ ∃ r, r ∈ reads ∧ covers min_mq r p id b).
Proof.
  revert st. induction reads as [|r reads IH]; intros st Hs Hobs; simpl in Hs.
  - injection Hs as ->. by left.
  - bind_inv Hs. destruct (IH _ Hs Hobs) as [Hmid|(Hin & r' & Hr' & Hc)].
    + apply process_read_Ok_inv in Ha as (Hu & [[Hp Heq]|(Hp & m & id0 & Hm & Hid & Heq)]);
        rewrite Heq in Hmid; [by left|].
      apply record_positions_observed_inv in Hmid as [?|(-> & Hin & Hb)]; [by left|].
      right. split; [done|]. exists r. split; [left|]. unfold covers. eauto 10.
    + right. split; [done|]. exists r'. split; [by right | done].
Qed.

(** X5. Provenance: after a scan that starts with nothing recorded, a base
    recorded for a position and a read id is the base that some accepted
    read of the fetched list with that read id has at that position, and
    the position is one of the requested ones. *)
Theorem observations_come_from_accepted_reads positions min_mq reads st p id b :
  scan_reads positions min_mq init_state reads = Ok st →
  observed (pos_overlap st) p id = Some b →
  p ∈ positions ∧ ∃ r, r ∈ reads ∧ covers min_mq r p id b.
Proof.
  intros Hs Hobs. destruct (scan_observed_inv _ _ _ _ _ _ _ _ Hs Hobs) as [Hinit|H]; [|done].
  unfold observed in Hinit. simpl in Hinit. by rewrite lookup_empty in Hinit.
Qed.

Lemma observations_come_from_accepted_reads_witness :
  4 ∈ Sample.positions
  ∧ ∃ r, r ∈ Sample.reads ∧ covers 13 r 4 "pair7" "G"%char.
Proof.
  apply (observations_come_from_accepted_reads Sample.positions 13 Sample.reads
           Cases.after_reads); by vm_compute.
Defined.

Lemma process_read_no_write positions min_mq st r st' p id :
  process_read positions min_mq st r = Ok st' →
  (∀ b, ¬ covers min_mq r p id b) →
  observed (pos_overlap st') p id = observed (pos_overlap st) p id.
Proof.
  intros H Hno.
  apply process_read_Ok_inv in H as (Hu & [[Hp ->]|(Hp & m & id0 & Hm & Hid & ->)]);
    [done|].
  destruct (decide (id = id0)) as [->|Hne];
    [|by apply record_positions_observed_other_id].
  unfold observed. rewrite record_positions_lookup_other; [done|]. right.
  destruct (m !! p) as [b|] eqn:Hb; [|done].
  exfalso. apply (Hno b). unfold covers. eauto 10.
Qed.

Lemma scan_no_write positions min_mq reads st st' p id :
  scan_reads positions min_mq st reads = Ok st' →
  (∀ r b, r ∈ reads → ¬ covers min_mq r p id b) →
  observed (pos_overlap st') p id = observed (pos_overlap st) p id.
Proof.
  revert st. induction reads as [|r reads IH]; intros st Hs Hno; simpl in Hs.
  - by injection Hs as ->.
  - bind_inv Hs. rewrite (IH _ Hs) by (intros r' b Hin; apply Hno; by right).
    eapply process_read_no_write; [done|]. intros b. apply Hno. left.
Qed.

Lemma scan_last_cover positions min_mq st pre r post st' p id b :
  scan_reads positions min_mq st (pre ++ r :: post) = Ok st' →
  p ∈ positions → covers min_mq r p id b →
  (∀ r' b', r' ∈ post → ¬ covers min_mq r' p id b') →
  observed (pos_overlap st') p id = Some b.
Proof.
  intros Hs Hin (Hu & Hp & Hid & m & Hm & Hb) Hno.
  rewrite scan_reads_app in Hs. bind_inv Hs. simpl in Hs. bind_inv Hs.
  rewrite (scan_no_write _ _ _ _ _ p id Hs) by (intros r' b' ?; by apply Hno).
  destruct (process_read_writes positions min_mq a r m id p b)
    as (st2 & Hst2 & Hobs); [done..|].
  congruence.
Qed.

(** X6. The base on record is the one of the last read that wrote it: when
    the scan goes through and a read of the list is accepted with a base
    at a requested position, and no later read of the list is an accepted
    read with the same read id and a base at that position, then the
    observer map ends with that read's base for the position and read id. *)
Theorem last_cover_is_recorded positions min_mq pre r post st p id b :
  scan_reads positions min_mq init_state (pre ++ r :: post) = Ok st →
  p ∈ positions → covers min_mq r p id b →
  (∀ r' b', r' ∈ post → ¬ covers min_mq r' p id b') →
  observed (pos_overlap st) p id = Some b
  ∧ ∃ d, pos_overlap st !! p = Some d ∧ id ∈ dom d.
Proof.
  intros Hs Hin Hc Hno.
  assert (Hobs := scan_last_cover _ _ _ _ _ _ _ _ _ _ Hs Hin Hc Hno).
  split; [done|]. unfold observed in Hobs.
  destruct (pos_overlap st !! p) as [d|]; [|done].
  exists d. split; [done|]. apply elem_of_dom. by eexists.
Qed.

Lemma record_pos_keeps_observers id m po pos p id' :
  is_Some (observed po p id') → is_Some (observed (record_pos id m po pos) p id').
Proof.
  intros Hobs. unfold record_pos. destruct (m !! pos) as [b|]; [|done].
  destruct (decide (pos = p)) as [->|Hp].
  - unfold observed in *. rewrite lookup_insert_eq. simpl.
    rewrite lookup_insert. case_decide; [by eexists|].
    by destruct (po !! p).
  - unfold observed in *. by rewrite lookup_insert_ne.
Qed.

Lemma record_positions_keeps_observers positions id m po p id' :
  is_Some (observed po p id') →
  is_Some (observed (record_positions positions id m po) p id').
Proof.
  unfold record_positions. revert po.
  induction positions as [|pos ps IH]; intros po Hobs; simpl; [done|].
  apply IH. by apply record_pos_keeps_observers.
Qed.

Lemma scan_keeps_observers positions min_mq reads st st' p id :
  scan_reads positions min_mq st reads = Ok st' →
  is_Some (observed (pos_overlap st) p id) →
  is_Some (observed (pos_overlap st') p id).
Proof.
  revert st. induction reads as [|r reads IH]; intros st Hs Hobs; simpl in Hs.
  - by injection Hs as <-.
  - bind_inv Hs. apply (IH _ Hs).
    apply process_read_Ok_inv in Ha as (_ & [[_ ->]|(_ & m & id0 & _ & _ & ->)]);
      [done|]. by apply record_positions_keeps_observers.
Qed.

Lemma record_positions_keeps_entries positions id m po p :
  is_Some (po !! p) → is_Some (record_positions positions id m po !! p).
Proof.
  unfold record_positions. revert po.
  induction positions as [|pos ps IH]; intros po Hp; simpl; [done|].
  apply IH. unfold record_pos. destruct (m !! pos); [|done].
  rewrite lookup_insert. by case_decide.
Qed.

Lemma scan_keeps_entries positions min_mq reads st st' p :
  scan_reads positions min_mq st reads = Ok st' →
  is_Some (pos_overlap st !! p) → is_Some (pos_overlap st' !! p).
Proof.
  revert st. induction reads as [|r reads IH]; intros st Hs Hp; simpl in Hs.
  - by injection Hs as <-.
  - bind_inv Hs. apply (IH _ Hs).
    apply process_read_Ok_inv in Ha as (_ & [[_ ->]|(_ & m & id0 & _ & _ & ->)]);
      [done|]. by apply record_positions_keeps_entries.
Qed.

(** X7. The observer map never shrinks: a position that has an entry at
    some point of the scan still has one when the scan ends, and every read
    id recorded there is still recorded there (possibly with another
    base). *)
Theorem observer_map_never_shrinks positions min_mq reads st st' p d :
  scan_reads positions min_mq st reads = Ok st' →
  pos_overlap st !! p = Some d →
  ∃ d', pos_overlap st' !! p = Some d' ∧ dom d ⊆ dom d'
        ∧ (observer_count (pos_overlap st) p ≤ observer_count (pos_overlap st') p)%nat.
Proof.
  intros Hs Hd.
  assert (Hk : ∀ id, id ∈ dom d → is_Some (observed (pos_overlap st') p id)).
  { intros id Hid. eapply scan_keeps_observers; [done|].
    unfold observed. rewrite Hd. simpl. by apply elem_of_dom. }
  destruct (scan_keeps_entries _ _ _ _ _ p Hs) as [d' Hd']; [by eexists|].
  assert (Hsub : dom d ⊆ dom d').
  { intros id Hid. specialize (Hk id Hid). unfold observed in Hk.
    rewrite Hd' in Hk. by apply elem_of_dom. }
  exists d'. split; [done|]. split; [done|].
  unfold observer_count. rewrite Hd, Hd'. simpl.
  rewrite <- !(size_dom (D := gset string)). by apply subseteq_size.
Qed.

Lemma scan_keys_requested positions min_mq reads st st' p :
  scan_reads positions min_mq st reads = Ok st' → p ∉ positions →
  pos_overlap st' !! p = pos_overlap st !! p.
Proof.
  revert st. induction reads as [|r reads IH]; intros st Hs Hnin; simpl in Hs.
  - by injection Hs as <-.
  - bind_inv Hs. rewrite (IH _ Hs Hnin).
    apply process_read_Ok_inv in Ha as (_ & [[_ ->]|(_ & m & id0 & _ & _ & ->)]);
      [done|]. apply record_positions_lookup_other. by left.
Qed.

(** X8. After a scan that starts with nothing recorded, the observer map
    has entries for requested positions only, and no entry is an empty
    map: a position no accepted read covered is absent, not empty. *)
Theorem entries_are_requested_and_nonempty positions min_mq reads st p d :
  scan_reads positions min_mq init_state reads = Ok st →
  pos_overlap st !! p = Some d →
  p ∈ positions ∧ d ≠ ∅ ∧ (0 < observer_count (pos_overlap st) p)%nat.
Proof.
  intros Hs Hd.
  assert (Hne : d ≠ ∅).
  { eapply (scan_reads_nonempty _ _ _ init_state); [|done..].
    intros p' d'. simpl. by rewrite lookup_empty. }
  split; [|split; [done|]].
  - destruct (decide (p ∈ positions)) as [|Hnin]; [done|].
    rewrite (scan_keys_requested _ _ _ _ _ _ Hs Hnin) in Hd.
    simpl in Hd. by rewrite lookup_empty in Hd.
  - unfold observer_count. rewrite Hd. simpl.
    destruct (decide (size d = 0%nat)) as [Hz|]; [|lia].
    by apply map_size_empty_iff in Hz.
Qed.

Lemma last_cover_is_recorded_witness :
  observed (pos_overlap Cases.after_clash) 4 "pair9" = Some "T"%char
  ∧ ∃ d, pos_overlap Cases.after_clash !! 4 = Some d ∧ "pair9"%string ∈ dom d.
Proof.
  apply (last_cover_is_recorded Sample.positions 13 [Sample.clash_1] Sample.clash_2
           [Sample.read_A; Sample.flagged; Sample.mate_1]).
  - by vm_compute.
  - left.
  - unfold covers. repeat split. eexists. split; [reflexivity | by vm_compute].
  - intros r' b' Hin (Hu & Hp & Hid & _).
    repeat (apply elem_of_cons in Hin as [->|Hin];
            [try (by vm_compute in Hp); by vm_compute in Hid|]).
    by apply elem_of_nil in Hin.
Defined.

Lemma observer_map_never_shrinks_witness :
  ∃ d', pos_overlap Cases.after_A_then_B !! 4 = Some d'
        ∧ dom Cases.entry_of_A_at_4 ⊆ dom d'
        ∧ (observer_count (pos_overlap Cases.after_read_A) 4
           ≤ observer_count (pos_overlap Cases.after_A_then_B) 4)%nat.
Proof.
  apply (observer_map_never_shrinks Sample.positions 13 [Sample.read_B]
           Cases.after_read_A); by vm_compute.
Defined.

Lemma entries_are_requested_and_nonempty_witness :
  4 ∈ Sample.positions ∧ Cases.entry_at_4 ≠ ∅
  ∧ (0 < observer_count (pos_overlap Cases.after_reads) 4)%nat.
Proof.
  apply (entries_are_requested_and_nonempty Sample.positions 13 Sample.reads
           Cases.after_reads 4 Cases.entry_at_4); by vm_compute.
Defined.

(** * Further properties of the intersection and the tally *)

Lemma intersect_rest_Raise po acc rest e :
  intersect_rest po acc rest = Raise e →
  e = KeyError ∧ ∃ p, p ∈ rest ∧ po !! p = None.
Proof.
  revert acc. induction rest as [|p rest IH]; intros acc; simpl; [done|].
  unfold Py.dict_getitem. destruct (po !! p) as [d|] eqn:Hd; simpl.
  - intros (-> & p' & Hin & Hnone)%IH. split; [done|].
    exists p'. split; [by right | done].
  - intros [= <-]. split; [done|]. exists p. split; [left | done].
Qed.

Lemma overlapping_all_Raise positions po e :
  overlapping_all positions po = Raise e →
  (positions = [] ∧ e = IndexError)
  ∨ (e = KeyError ∧ ∃ p, p ∈ positions ∧ po !! p = None).
Proof.
  unfold overlapping_all. destruct positions as [|p0 ps]; simpl.
  - intros [= <-]. by left.
  - unfold Py.dict_getitem. destruct (po !! p0) as [d|] eqn:Hd; simpl.
    + intros (-> & p & Hin & Hnone)%intersect_rest_Raise. right. split; [done|].
      exists p. split; [by right | done].
    + intros [= <-]. right. split; [done|]. exists p0. split; [left | done].
Qed.

(** X9. The intersection does not depend on the order of the request: a
    permutation of the positions gives the same set of read ids, or the
    same exception. *)
Theorem overlapping_all_permutation positions positions' po :
  positions ≡ₚ positions' →
  overlapping_all positions po = overlapping_all positions' po.
Proof.
  intros Hperm.
  destruct (overlapping_all positions po) as [ids|e] eqn:H1;
    destruct (overlapping_all positions' po) as [ids'|e'] eqn:H2.
  - f_equal. apply set_eq. intros id.
    rewrite (proj2 (overlapping_all_spec _ _ _ H1) id).
    rewrite (proj2 (overlapping_all_spec _ _ _ H2) id).
    split; intros [Hne Hall]; split.
    + intros ->. apply Hne. by apply Permutation_nil_r.
    + intros p Hin. apply Hall. by rewrite Hperm.
    + intros ->. apply Hne. by apply Permutation_nil_r.
    + intros p Hin. apply Hall. by rewrite <- Hperm.
  - exfalso. apply overlapping_all_Raise in H2 as [[-> _]|(_ & p & Hin & Hnone)].
    + apply Permutation_nil_r in Hperm as ->. discriminate.
    + destruct (proj1 (overlapping_all_spec _ _ _ H1) p) as (d & Hd & _);
        [by rewrite Hperm | congruence].
  - exfalso. apply overlapping_all_Raise in H1 as [[-> _]|(_ & p & Hin & Hnone)].
    + symmetry in Hperm. apply Permutation_nil_r in Hperm as ->. discriminate.
    + destruct (proj1 (overlapping_all_spec _ _ _ H2) p) as (d & Hd & _);
        [by rewrite <- Hperm | congruence].
  - f_equal.
    apply overlapping_all_Raise in H1 as [[-> ->]|(-> & p & Hin & Hnone)].
    + symmetry in Hperm. apply Permutation_nil_r in Hperm as ->.
      unfold overlapping_all in H2. simpl in H2. congruence.
    + rewrite (overlapping_all_missing positions' po p) in H2;
        [congruence | by rewrite <- Hperm | done].
Qed.

Lemma overlapping_all_permutation_witness :
  overlapping_all [4; 11] Sample.scanned = overlapping_all [11; 4] Sample.scanned.
Proof. apply overlapping_all_permutation. apply perm_swap. Defined.

Lemma scan_covered positions min_mq reads st st' r p id b :
  scan_reads positions min_mq st reads = Ok st' →
  r ∈ reads → covers min_mq r p id b → p ∈ positions →
  is_Some (observed (pos_overlap st') p id).
Proof.
  intros Hs Hr (Hu & Hp & Hid & m & Hm & Hb) Hin.
  apply list_elem_of_split in Hr as (pre & post & ->).
  rewrite scan_reads_app in Hs. bind_inv Hs. simpl in Hs. bind_inv Hs.
  eapply scan_keeps_observers; [done|].
  destruct (process_read_writes positions min_mq a r m id p b)
    as (st2 & Hst2 & Hobs); [done..|].
  assert (a0 = st2) as -> by congruence. by eexists.
Qed.

(** X10. Which read ids are counted. In a completed run, a read id is in
    [overlapping_all] exactly when, for every requested position, some
    accepted read of the fetched list with that read id has a base there;
    the reads may differ from position to position, as the two mates of a
    pair do. *)
Theorem counted_ids_are_covered_everywhere sam chrom positions min_mq run :
  joined_counts_run sam chrom positions min_mq = Ok run →
  ∃ lo hi reads,
    Py.min positions = Ok lo ∧ Py.max positions = Ok hi
    ∧ fetch sam chrom lo (hi + 1) = Ok reads
    ∧ ∀ id, id ∈ run_overlapping_all run
            ↔ ∀ p, p ∈ positions → ∃ r b, r ∈ reads ∧ covers min_mq r p id b.
Proof.
  intros Hr.
  destruct (joined_counts_run_inv _ _ _ _ _ Hr)
    as (Hlen & lo & hi & reads & Hlo & Hhi & Hf & Hs & Hids & _).
  exists lo, hi, reads. split; [done|]. split; [done|]. split; [done|].
  intros id. rewrite (proj2 (overlapping_all_spec _ _ _ Hids) id). split.
  - intros [_ Hall] p Hin. destruct (Hall p Hin) as [b Hb].
    destruct (scan_observed_inv _ _ _ _ _ _ _ _ Hs Hb) as [Hinit|(_ & r & Hr' & Hc)].
    + unfold observed in Hinit. simpl in Hinit. by rewrite lookup_empty in Hinit.
    + eauto.
  - intros Hall. split.
    + intros ->. simpl in Hlen. lia.
    + intros p Hin. destruct (Hall p Hin) as (r & b & Hr' & Hc).
      by eapply scan_covered.
Qed.

Lemma counted_ids_are_covered_everywhere_witness :
  ∃ lo hi reads,
    Py.min Sample.positions = Ok lo ∧ Py.max Sample.positions = Ok hi
    ∧ fetch (Sample.store Sample.reads) "chr1" lo (hi + 1) = Ok reads
    ∧ ∀ id, id ∈ run_overlapping_all Sample.run
            ↔ ∀ p, p ∈ Sample.positions → ∃ r b, r ∈ reads ∧ covers 13 r p id b.
Proof.
  apply (counted_ids_are_covered_everywhere (Sample.store Sample.reads) "chr1"
           Sample.positions 13 Sample.run).
  by vm_compute.
Defined.

(** ** The tally counts read ids per key *)

Lemma count_keys_exact po positions counts ids counts' key :
  count_keys po positions counts ids = Ok counts' →
  default 0 (counts' !! key)
  = default 0 (counts !! key)
    + Z.of_nat (length (List.filter (has_key po positions key) ids)).
Proof.
  revert counts. induction ids as [|id ids IH]; intros counts Hc; simpl in Hc.
  - injection Hc as <-. simpl. lia.
  - bind_inv Hc. rewrite (IH _ Hc). simpl List.filter. unfold has_key at 2.
    rewrite Ha. rewrite lookup_insert. case_decide as Hk.
    + subst a. rewrite bool_decide_eq_true_2 by done. simpl. lia.
    + rewrite bool_decide_eq_false_2 by done. lia.
Qed.

Lemma count_keys_positive po positions counts ids counts' :
  count_keys po positions counts ids = Ok counts' →
  (∀ key n, counts !! key = Some n → 1 ≤ n) →
  ∀ key n, counts' !! key = Some n → 1 ≤ n.
Proof.
  revert counts. induction ids as [|id ids IH]; intros counts Hc Hpos; simpl in Hc.
  - by injection Hc as <-.
  - bind_inv Hc. apply (IH _ Hc). intros key n. rewrite lookup_insert.
    case_decide as Hk; [|apply Hpos]. intros [= <-].
    destruct (counts !! a) as [n0|] eqn:Hn0; simpl; [|lia].
    specialize (Hpos _ _ Hn0). lia.
Qed.

Lemma joined_counts_Ok_run sam chrom positions min_mq counts :
  joined_counts sam chrom positions min_mq = Ok counts →
  ∃ run, joined_counts_run sam chrom positions min_mq = Ok run
         ∧ run_counts run = counts.
Proof.
  unfold joined_counts. intros H. bind_inv H. injection H as <-. eauto.
Qed.

(** X11. What a table entry means: in a completed run the value stored
    under a key is the number of read ids of [overlapping_all] whose bases
    at the requested positions spell that key, a key no read id spells is
    absent, and no stored value is below 1. *)
Theorem table_counts_read_ids_per_key sam chrom positions min_mq run key :
  joined_counts_run sam chrom positions min_mq = Ok run →
  default 0 (run_counts run !! key)
  = Z.of_nat (length (List.filter
                        (has_key (pos_overlap (run_state run)) positions key)
                        (elements (run_overlapping_all run))))
  ∧ (run_counts run !! key = None
     ↔ ∀ id, id ∈ run_overlapping_all run →
             joint_key (pos_overlap (run_state run)) positions id ≠ Ok key)
  ∧ (∀ n, run_counts run !! key = Some n → 1 ≤ n).
Proof.
  intros Hr.
  destruct (joined_counts_run_inv _ _ _ _ _ Hr)
    as (_ & lo & hi & reads & _ & _ & _ & _ & _ & Hc).
  assert (Hex := count_keys_exact _ _ _ _ _ key Hc).
  rewrite lookup_empty in Hex. simpl in Hex.
  assert (Hpos : ∀ n, run_counts run !! key = Some n → 1 ≤ n).
  { intros n. eapply count_keys_positive; [done|]. intros k n'.
    by rewrite lookup_empty. }
  split; [done|]. split; [|done].
  set (po := pos_overlap (run_state run)) in *.
  assert (Hlen : length (List.filter (has_key po positions key)
                           (elements (run_overlapping_all run))) = 0%nat
                 ↔ ∀ id, id ∈ run_overlapping_all run →
                         joint_key po positions id ≠ Ok key).
  { rewrite length_zero_iff_nil. split.
    - intros Hnil id Hid Hk.
      assert (Hin : In id (List.filter (has_key po positions key)
                             (elements (run_overlapping_all run)))).
      { apply filter_In. split.
        - apply list_elem_of_In. by apply elem_of_elements.
        - unfold has_key. rewrite Hk. by apply bool_decide_eq_true_2. }
      by rewrite Hnil in Hin.
    - intros Hno.
      destruct (List.filter _ _) as [|id l] eqn:Hf; [done|]. exfalso.
      assert (Hin : In id (List.filter (has_key po positions key)
                             (elements (run_overlapping_all run))))
        by (rewrite Hf; by left).
      apply filter_In in Hin as [Hin Hk].
      apply list_elem_of_In, elem_of_elements in Hin.
      apply (Hno id Hin). unfold has_key in Hk.
      destruct (joint_key po positions id) as [k|]; [|done].
      by apply bool_decide_eq_true in Hk as ->. }
  rewrite <- Hlen. destruct (run_counts run !! key) as [n|] eqn:Hn.
  - specialize (Hpos n eq_refl). simpl in Hex. split; [done|]. intros Hz.
    rewrite Hz in Hex. simpl in Hex. lia.
  - simpl in Hex. split; [|done]. intros _. lia.
Qed.

Lemma table_counts_read_ids_per_key_witness :
  default 0 (run_counts Sample.run !! "GT"%string)
  = Z.of_nat (length (List.filter
                        (has_key (pos_overlap (run_state Sample.run))
                           Sample.positions "GT")
                        (elements (run_overlapping_all Sample.run))))
  ∧ (run_counts Sample.run !! "GT"%string = None
     ↔ ∀ id, id ∈ run_overlapping_all Sample.run →
             joint_key (pos_overlap (run_state Sample.run)) Sample.positions id
             ≠ Ok "GT"%string)
  ∧ (∀ n, run_counts Sample.run !! "GT"%string = Some n → 1 ≤ n).
Proof.
  apply (table_counts_read_ids_per_key (Sample.store Sample.reads) "chr1"
           Sample.positions 13 Sample.run "GT").
  by vm_compute.
Defined.

Lemma sum_values_lower_bound (counts : gmap string Z) key n :
  (∀ k v, counts !! k = Some v → 0 ≤ v) →
  counts !! key = Some n → n ≤ sum_values counts.
Proof.
  revert key n. induction counts as [|k v m Hfresh IH] using map_ind;
    intros key n Hpos Hn.
  - by rewrite lookup_empty in Hn.
  - rewrite sum_values_insert_fresh by done.
    assert (Hm : ∀ k' v', m !! k' = Some v' → 0 ≤ v').
    { intros k' v' Hk'. apply (Hpos k' v'). rewrite lookup_insert_ne; [done|].
      intros ->. congruence. }
    assert (0 ≤ v) by (apply (Hpos k v); by rewrite lookup_insert_eq).
    assert (0 ≤ sum_values m).
    { clear -Hm. induction m as [|k' v' m' Hf' IH'] using map_ind.
      - by rewrite sum_values_empty.
      - rewrite sum_values_insert_fresh by done.
        assert (0 ≤ v') by (apply (Hm k' v'); by rewrite lookup_insert_eq).
        assert (0 ≤ sum_values m'); [|lia]. apply IH'. intros k2 v2 Hk2.
        apply (Hm k2 v2). rewrite lookup_insert_ne; [done|]. intros ->. congruence. }
    rewrite lookup_insert in Hn. case_decide.
    + injection Hn as <-. lia.
    + specialize (IH _ _ Hm Hn). lia.
Qed.

(** X12. The report loop of [main] is safe on every returned table: each
    key's count is at least 1, so the test of line 237 always holds, and
    at most the total, so the divisor of line 238 is never zero. *)
Theorem report_never_divides_by_zero sam chrom positions min_mq counts key n :
  joined_counts sam chrom positions min_mq = Ok counts →
  counts !! key = Some n →
  1 ≤ n ≤ sum_values counts ∧ sum_values counts ≠ 0.
Proof.
  intros (run & Hr & <-)%joined_counts_Ok_run Hn.
  destruct (joined_counts_run_inv _ _ _ _ _ Hr)
    as (_ & lo & hi & reads & _ & _ & _ & _ & _ & Hc).
  assert (Hpos : ∀ k v, run_counts run !! k = Some v → 1 ≤ v).
  { eapply count_keys_positive; [done|]. intros k v. by rewrite lookup_empty. }
  assert (1 ≤ n) by by eapply Hpos.
  assert (n ≤ sum_values (run_counts run)).
  { eapply sum_values_lower_bound; [|done]. intros k v Hk.
    specialize (Hpos k v Hk). lia. }
  lia.
Qed.

Lemma report_never_divides_by_zero_witness :
  1 ≤ 1 ≤ sum_values (run_counts Sample.run) ∧ sum_values (run_counts Sample.run) ≠ 0.
Proof.
  apply (report_never_divides_by_zero (Sample.store Sample.reads) "chr1"
           Sample.positions 13 (run_counts Sample.run) "AC" 1); by vm_compute.
Defined.

(** X13. In a completed run the returned table is empty exactly when no
    read id overlaps all requested positions. *)
Theorem table_empty_iff_no_overlap sam chrom positions min_mq run :
  joined_counts_run sam chrom positions min_mq = Ok run →
  run_counts run = ∅ ↔ run_overlapping_all run = ∅.
Proof.
  intros Hr.
  destruct (joined_counts_run_inv _ _ _ _ _ Hr)
    as (_ & lo & hi & reads & _ & _ & _ & _ & _ & Hc).
  split.
  - intros Hempty. apply count_keys_sum in Hc.
    rewrite Hempty, !sum_values_empty in Hc.
    apply leibniz_equiv, size_empty_iff. unfold size, set_size. simpl. lia.
  - intros Hempty. rewrite Hempty, elements_empty in Hc. simpl in Hc. congruence.
Qed.

Lemma table_empty_iff_no_overlap_witness :
  run_counts Cases.disjoint_run = ∅ ↔ run_overlapping_all Cases.disjoint_run = ∅.
Proof.
  apply (table_empty_iff_no_overlap (Sample.store [Sample.read_B; Sample.mate_2])
           "chr1" Sample.positions 13 Cases.disjoint_run).
  by vm_compute.
Defined.

Lemma filter_length_perm {A : Type} (f : A → bool) (l l' : list A) :
  l ≡ₚ l' → length (List.filter f l) = length (List.filter f l').
Proof.
  induction 1 as [|x l l' _ IH|x y l|l l' l'' _ IH1 _ IH2]; simpl.
  - done.
  - destruct (f x); simpl; by rewrite IH.
  - by destruct (f x), (f y).
  - by rewrite IH1.
Qed.

Lemma joint_key_Raise po positions id e :
  joint_key po positions id = Raise e → e = KeyError.
Proof.
  unfold joint_key.
  assert (Hb : ∀ e', joint_bases po id positions = Raise e' → e' = KeyError).
  { induction positions as [|p ps IH]; simpl; intros e'; [done|].
    unfold Py.dict_getitem. destruct (po !! p) as [d|]; simpl; [|congruence].
    destruct (d !! id); simpl; [|congruence].
    destruct (joint_bases po id ps); simpl; [done|]. intros [= <-]. by apply IH. }
  destruct (joint_bases po id positions) as [bs|e'] eqn:Hbs; simpl; [done|].
  intros [= <-]. by apply Hb.
Qed.

Lemma count_keys_Ok_iff po positions counts ids :
  (∃ c, count_keys po positions counts ids = Ok c)
  ↔ ∀ id, id ∈ ids → ∃ k, joint_key po positions id = Ok k.
Proof.
  revert counts. induction ids as [|id ids IH]; intros counts; simpl.
  - split; [by intros _ id ?%elem_of_nil | by eexists].
  - destruct (joint_key po positions id) as [k|e] eqn:Hk; simpl.
    + rewrite IH. split.
      * intros Hall id' [->|Hin]%elem_of_cons; [eauto | by apply Hall].
      * intros Hall id' Hin. apply Hall. by right.
    + split; [by intros [c ?]|]. intros Hall.
      destruct (Hall id) as [k Hk']; [left | congruence].
Qed.

Lemma count_keys_Raise po positions counts ids e :
  count_keys po positions counts ids = Raise e → e = KeyError.
Proof.
  revert counts. induction ids as [|id ids IH]; intros counts; simpl; [done|].
  destruct (joint_key po positions id) as [k|e'] eqn:Hk; simpl; [apply IH|].
  intros [= <-]. by eapply joint_key_Raise.
Qed.

(** X14. The tally does not depend on the order in which the read ids are
    enumerated: two enumerations of the same ids give the same table, or
    both raise [KeyError]. In particular the table returned by
    [joined_counts] is the same for every order [list(overlapping_all)]
    may produce. *)
Theorem tally_order_irrelevant po positions ids ids' :
  ids ≡ₚ ids' →
  count_keys po positions ∅ ids = count_keys po positions ∅ ids'.
Proof.
  intros Hperm.
  assert (Hiff : (∃ c, count_keys po positions ∅ ids = Ok c)
                 ↔ (∃ c, count_keys po positions ∅ ids' = Ok c)).
  { rewrite !count_keys_Ok_iff. split; intros Hall id Hin; apply Hall.
    - by rewrite Hperm.
    - by rewrite <- Hperm. }
  destruct (count_keys po positions ∅ ids) as [c|e] eqn:H1;
    destruct (count_keys po positions ∅ ids') as [c'|e'] eqn:H2.
  - f_equal. apply map_eq. intros key.
    assert (Hd : default 0 (c !! key) = default 0 (c' !! key)).
    { rewrite (count_keys_exact _ _ _ _ _ key H1), (count_keys_exact _ _ _ _ _ key H2).
      by rewrite (filter_length_perm _ _ _ Hperm). }
    assert (P1 : ∀ n, c !! key = Some n → 1 ≤ n).
    { intros n. eapply count_keys_positive; [done|]. intros k v.
      by rewrite lookup_empty. }
    assert (P2 : ∀ n, c' !! key = Some n → 1 ≤ n).
    { intros n. eapply count_keys_positive; [done|]. intros k v.
      by rewrite lookup_empty. }
    destruct (c !! key) as [n|], (c' !! key) as [n'|]; simpl in Hd.
    + by rewrite Hd.
    + specialize (P1 n eq_refl). lia.
    + specialize (P2 n' eq_refl). lia.
    + done.
  - destruct (proj1 Hiff) as [c' ?]; [eauto | congruence].
  - destruct (proj2 Hiff) as [c ?]; [eauto | congruence].
  - apply count_keys_Raise in H1, H2. congruence.
Qed.

Lemma tally_order_irrelevant_witness :
  count_keys Sample.scanned Sample.positions ∅ ["readA"%string; "pair7"%string]
  = count_keys Sample.scanned Sample.positions ∅ ["pair7"%string; "readA"%string].
Proof. apply tally_order_irrelevant. apply perm_swap. Defined.

(** * Further properties of the request checks *)

Lemma foldl_min_spec (l : list Z) (x : Z) :
  foldl Z.min x l ∈ x :: l ∧ ∀ y, y ∈ x :: l → foldl Z.min x l ≤ y.
Proof.
  revert x. induction l as [|z l IH]; intros x; simpl.
  - split; [left|]. intros y ->%list_elem_of_singleton. lia.
  - destruct (IH (Z.min x z)) as [Hin Hle]. split.
    + apply elem_of_cons in Hin as [Heq|Hin]; [|right; by right].
      rewrite Heq. destruct (Z.min_spec x z) as [[_ ->]|[_ ->]]; [left | right; left].
    + intros y Hy. assert (Hm := Hle (Z.min x z) ltac:(left)).
      apply elem_of_cons in Hy as [->|[->|Hy]%elem_of_cons].
      * lia.
      * lia.
      * apply Hle. by right.
Qed.

Lemma foldl_max_spec (l : list Z) (x : Z) :
  foldl Z.max x l ∈ x :: l ∧ ∀ y, y ∈ x :: l → y ≤ foldl Z.max x l.
Proof.
  revert x. induction l as [|z l IH]; intros x; simpl.
  - split; [left|]. intros y ->%list_elem_of_singleton. lia.
  - destruct (IH (Z.max x z)) as [Hin Hle]. split.
    + apply elem_of_cons in Hin as [Heq|Hin]; [|right; by right].
      rewrite Heq. destruct (Z.max_spec x z) as [[_ ->]|[_ ->]]; [right; left | left].
    + intros y Hy. assert (Hm := Hle (Z.max x z) ltac:(left)).
      apply elem_of_cons in Hy as [->|[->|Hy]%elem_of_cons].
      * lia.
      * lia.
      * apply Hle. by right.
Qed.

Lemma request_ok_true_iff (positions : list Z) :
  request_ok positions = Ok true
  ↔ (2 ≤ length positions)%nat ∧ ∀ p, p ∈ positions → 0 ≤ p.
Proof.
  unfold request_ok.
  destruct (2 <=? Z.of_nat (length positions)) eqn:Hlen.
  - apply Z.leb_le in Hlen. destruct positions as [|x l]; [simpl in Hlen; lia|].
    simpl. destruct (foldl_min_spec l x) as [Hin Hle]. split.
    + intros [= H0]. apply Z.leb_le in H0. split; [simpl in *; lia|].
      intros p Hp. specialize (Hle p Hp). lia.
    + intros [_ Hall]. do 2 f_equal. apply Z.leb_le. by apply Hall.
  - apply Z.leb_gt in Hlen. split; [done|]. intros [? _]. lia.
Qed.

Lemma request_ok_false (positions : list Z) :
  request_ok positions ≠ Ok true →
  ∀ sam chrom min_mq, joined_counts sam chrom positions min_mq = Raise AssertionError.
Proof.
  intros Hno sam chrom min_mq. unfold joined_counts, joined_counts_run.
  destruct (request_ok positions) as [[|]|e] eqn:Hr; simpl; [done|done|].
  unfold request_ok in Hr. destruct positions as [|x l]; [done|].
  by destruct (2 <=? _).
Qed.

(** X15. The assertion of line 94 also guards the sign: a request with a
    negative position makes [joined_counts] raise [AssertionError] for
    every store, before anything is fetched. *)
Theorem negative_position_rejected sam chrom positions min_mq p :
  p ∈ positions → p < 0 →
  joined_counts sam chrom positions min_mq = Raise AssertionError.
Proof.
  intros Hin Hneg. apply request_ok_false.
  rewrite request_ok_true_iff. intros [_ Hall]. specialize (Hall p Hin). lia.
Qed.

Lemma negative_position_rejected_witness :
  joined_counts Sample.no_contig "chr1" [4; -1; 11] 13 = Raise AssertionError.
Proof.
  apply (negative_position_rejected Sample.no_contig "chr1" [4; -1; 11] 13 (-1)).
  - right. left.
  - lia.
Defined.

(** X16. The region fetched at line 110 covers the request: for a request
    that passes line 94, [fetch] is called with the smallest requested
    position and one past the largest, both bounds come from the request,
    every requested position lies in the half-open window, and an
    exception of [fetch] is what [joined_counts] raises. *)
Theorem fetch_window_covers_request sam chrom positions min_mq :
  request_ok positions = Ok true →
  ∃ lo hi,
    Py.min positions = Ok lo ∧ Py.max positions = Ok hi
    ∧ lo ∈ positions ∧ hi ∈ positions ∧ 0 ≤ lo
    ∧ (∀ p, p ∈ positions → lo ≤ p < hi + 1)
    ∧ (∀ e, fetch sam chrom lo (hi + 1) = Raise e →
            joined_counts sam chrom positions min_mq = Raise e).
Proof.
  intros Hok. apply request_ok_true_iff in Hok as Hreq. destruct Hreq as [Hlen Hall].
  destruct positions as [|x l]; [simpl in Hlen; lia|].
  destruct (foldl_min_spec l x) as [Hmin_in Hmin].
  destruct (foldl_max_spec l x) as [Hmax_in Hmax].
  exists (foldl Z.min x l), (foldl Z.max x l).
  split; [done|]. split; [done|]. split; [done|]. split; [done|].
  split; [by apply Hall|]. split.
  - intros p Hp. specialize (Hmin p Hp). specialize (Hmax p Hp). lia.
  - intros e He. unfold joined_counts, joined_counts_run.
    rewrite Hok. simpl. by rewrite He.
Qed.

Lemma fetch_window_covers_request_witness :
  ∃ lo hi,
    Py.min [11; 4; 7] = Ok lo ∧ Py.max [11; 4; 7] = Ok hi
    ∧ lo ∈ [11; 4; 7] ∧ hi ∈ [11; 4; 7] ∧ 0 ≤ lo
    ∧ (∀ p, p ∈ [11; 4; 7] → lo ≤ p < hi + 1)
    ∧ (∀ e, fetch Sample.no_contig "chr1" lo (hi + 1) = Raise e →
            joined_counts Sample.no_contig "chr1" [11; 4; 7] 13 = Raise e).
Proof.
  apply (fetch_window_covers_request Sample.no_contig "chr1" [11; 4; 7] 13).
  reflexivity.
Defined.

(** X17. [main] turns down bad input before it opens the store: a missing
    BAM file, or a command-line position below 1, ends in exit code 1. *)
Theorem main_rejects_bad_input env args :
  path_exists env (arg_bam args) = false ∨ (∃ x, x ∈ arg_positions args ∧ x < 1) →
  main env args = SysExit 1.
Proof.
  intros Hbad. unfold main.
  destruct (path_exists env (arg_bam args)) eqn:Hbam; simpl; [|done].
  destruct Hbad as [?|(x & Hin & Hx)]; [done|].
  destruct (truthy (arg_ref_fa args) && _); [done|].
  destruct (Z.of_nat _ <? 2); [done|].
  assert (Hex : existsb (λ pos, pos <? 0) (map (λ x, x - 1) (arg_positions args)) = true).
  { apply existsb_exists. exists (x - 1). split.
    - apply in_map_iff. exists x. split; [done|]. by apply list_elem_of_In.
    - apply Z.ltb_lt. lia. }
  by rewrite Hex.
Qed.

Lemma main_rejects_bad_input_witness :
  main (Sample.env (Sample.store Sample.reads)) Cases.zero_position = SysExit 1.
Proof.
  apply main_rejects_bad_input. right. exists 0. split; [left | lia].
Defined.

(** X18. [main] only counts valid requests: whenever it does not exit with
    code 1, the BAM file exists, at least two positions were given, all of
    them at least 1, and the zero-based request it hands over satisfies
    the assertion of line 94; without a reference file its outcome is the
    outcome of [joined_counts] on the positions lowered by one. *)
Theorem main_only_counts_valid_requests env args :
  main env args ≠ SysExit 1 →
  path_exists env (arg_bam args) = true
  ∧ (2 ≤ length (arg_positions args))%nat
  ∧ (∀ x, x ∈ arg_positions args → 1 ≤ x)
  ∧ request_ok (map (λ x, x - 1) (arg_positions args)) = Ok true
  ∧ (arg_ref_fa args = None →
     main env args =
       match joined_counts (open_samfile env (arg_bam args)) (arg_chrom args)
               (map (λ x, x - 1) (arg_positions args)) (arg_min_mq args) with
       | Ok counts => Report counts
       | Raise e => Uncaught e
       end).
Proof.
  unfold main. intros Hmain.
  destruct (path_exists env (arg_bam args)) eqn:Hbam; simpl in *; [|done].
  destruct (truthy (arg_ref_fa args) && _) eqn:Hfa; [done|].
  destruct (Z.of_nat _ <? 2) eqn:Hlen; [done|].
  destruct (existsb _ _) eqn:Hex; [done|].
  apply Z.ltb_ge in Hlen. rewrite length_map in Hlen.
  assert (Hpos : ∀ x, x ∈ arg_positions args → 1 ≤ x).
  { intros x Hin. destruct (Z_lt_le_dec x 1) as [Hlt|]; [|done]. exfalso.
    assert (existsb (λ pos, pos <? 0) (map (λ x, x - 1) (arg_positions args)) = true);
      [|congruence].
    apply existsb_exists. exists (x - 1). split.
    - apply in_map_iff. exists x. split; [done|]. by apply list_elem_of_In.
    - apply Z.ltb_lt. lia. }
  split; [done|]. split; [lia|]. split; [done|]. split.
  - apply request_ok_true_iff. rewrite length_map. split; [lia|].
    intros p (x & -> & Hin)%list_elem_of_fmap. specialize (Hpos x Hin). lia.
  - intros Hnone. rewrite Hnone. simpl. done.
Qed.

Lemma main_only_counts_valid_requests_witness :
  main (Sample.env (Sample.store Sample.reads)) (Sample.args [5; 12])
  = Report (run_counts Sample.run).
Proof.
  destruct (main_only_counts_valid_requests
              (Sample.env (Sample.store Sample.reads)) (Sample.args [5; 12]))
    as (_ & _ & _ & _ & Hmain); [by vm_compute|].
  rewrite (Hmain eq_refl). by vm_compute.
Defined.

(** * The outcome of a call *)






(** X20. When a call returns. For a request that passes line 94, a fetch
    that succeeds and a scan that goes through, [joined_counts] returns a
    table if every requested position is covered by some accepted read of
    the fetched list, and raises [KeyError] if some requested position is
    covered by no accepted read at all. *)
Theorem joined_counts_returns_iff_covered sam chrom positions min_mq lo hi reads st :
  request_ok positions = Ok true →
  Py.min positions = Ok lo → Py.max positions = Ok hi →
  fetch sam chrom lo (hi + 1) = Ok reads →
  scan_reads positions min_mq init_state reads = Ok st →
  ((∀ p, p ∈ positions → ∃ r id b, r ∈ reads ∧ covers min_mq r p id b)
   ∧ ∃ counts, joined_counts sam chrom positions min_mq = Ok counts)
  ∨ ((∃ p, p ∈ positions ∧ ∀ r id b, r ∈ reads → ¬ covers min_mq r p id b)
     ∧ joined_counts sam chrom positions min_mq = Raise KeyError).
Proof.
  intros Hok Hlo Hhi Hf Hs.
  destruct (decide (Forall (λ p, is_Some (pos_overlap st !! p)) positions))
    as [Hall|Hnot].
  - left. rewrite Forall_forall in Hall. split.
    + intros p Hin. destruct (Hall p Hin) as [d Hd].
      assert (Hne : d ≠ ∅).
      { eapply (scan_reads_nonempty _ _ _ init_state); [|done..].
        intros p' d'. simpl. by rewrite lookup_empty. }
      apply map_choose in Hne as (id & b & Hb).
      assert (Hobs : observed (pos_overlap st) p id = Some b)
        by (unfold observed; by rewrite Hd).
      destruct (scan_observed_inv _ _ _ _ _ _ _ _ Hs Hobs) as [Hinit|(_ & r & Hr & Hc)].
      * unfold observed in Hinit. simpl in Hinit. by rewrite lookup_empty in Hinit.
      * eauto.
    + destruct (joined_counts_run_completes sam chrom positions min_mq lo hi reads st)
        as (run & Hrun & _); [done..|].
      exists (run_counts run). unfold joined_counts. by rewrite Hrun.
  - right. apply not_Forall_Exists in Hnot; [|apply _].
    apply Exists_exists in Hnot as (p & Hin & Hp).
    assert (Hnone : pos_overlap st !! p = None).
    { unfold compose in Hp. cbv beta in Hp.
      destruct (pos_overlap st !! p) as [d|]; [|done].
      exfalso. apply Hp. by exists d. }
    split.
    + exists p. split; [done|]. intros r id b Hr Hc.
      destruct (scan_covered _ _ _ _ _ _ _ _ _ Hs Hr Hc Hin) as [b' Hb'].
      unfold observed in Hb'. by rewrite Hnone in Hb'.
    + by eapply joined_counts_uncovered.
Qed.

Lemma joined_counts_returns_iff_covered_witness :
  ((∀ p, p ∈ Sample.positions →
      ∃ r id b, r ∈ [Sample.read_B; Sample.mate_2] ∧ covers 13 r p id b)
   ∧ ∃ counts,
       joined_counts (Sample.store [Sample.read_B; Sample.mate_2]) "chr1"
         Sample.positions 13 = Ok counts)
  ∨ ((∃ p, p ∈ Sample.positions
           ∧ ∀ r id b, r ∈ [Sample.read_B; Sample.mate_2] → ¬ covers 13 r p id b)
     ∧ joined_counts (Sample.store [Sample.read_B; Sample.mate_2]) "chr1"
         Sample.positions 13 = Raise KeyError).
Proof.
  apply (joined_counts_returns_iff_covered
           (Sample.store [Sample.read_B; Sample.mate_2]) "chr1" Sample.positions 13
           4 11 [Sample.read_B; Sample.mate_2] Cases.after_B_mate_2);
    by vm_compute.
Defined.

(** X21. Reads whose names differ only after a mate separator share their
    read id: whatever the separators (among [.], [/], [#]) and whatever the
    final characters, both names give the part before the separator. The
    final character is never looked at. *)
Theorem names_differing_in_suffix_share_id (base : string) (s1 s2 c1 c2 : ascii) :
  s1 ∈ mate_separators → s2 ∈ mate_separators →
  read_id_base (base ++ String s1 (String c1 EmptyString)) = Ok base
  ∧ read_id_base (base ++ String s2 (String c2 EmptyString)) = Ok base.
Proof.
  intros H1 H2. unfold read_id_base.
  rewrite !getitem_second_last. simpl. rewrite !slice_to_second_last.
  apply is_mate_separator_spec in H1, H2. by rewrite H1, H2.
Qed.

Lemma names_differing_in_suffix_share_id_witness :
  read_id_base ("lane3" ++ String "/" (String "1" EmptyString)) = Ok "lane3"%string
  ∧ read_id_base ("lane3" ++ String "#" (String "x" EmptyString)) = Ok "lane3"%string.
Proof.
  apply (names_differing_in_suffix_share_id "lane3" "/" "#" "1" "x").
  - right. left.
  - right. right. left.
Defined.

(** ** One read that covers the whole request *)

Lemma joint_bases_of_observed po id positions bs :
  Forall2 (λ p b, observed po p id = Some b) positions bs →
  joint_bases po id positions = Ok bs.
Proof.
  induction 1 as [|p b ps bs Hobs _ IH]; simpl; [done|].
  unfold observed in Hobs. unfold Py.dict_getitem.
  destruct (po !! p) as [d|]; [|done]. simpl in *. by rewrite Hobs, IH.
Qed.

(** X22. A fetch that yields a single accepted read with a base at every
    requested position gives a table with one entry: the bases of the read
    at the positions, in request order, counted once. *)
Theorem single_covering_read_table sam chrom positions min_mq lo hi r m id bs :
  request_ok positions = Ok true →
  Py.min positions = Ok lo → Py.max positions = Ok hi →
  fetch sam chrom lo (hi + 1) = Ok [r] →
  is_unmapped r = false → passes_filters min_mq r = true →
  pos_nt_map r = Ok m → read_id_base (qname r) = Ok id →
  Forall2 (λ p b, m !! p = Some b) positions bs →
  joined_counts sam chrom positions min_mq = Ok {[ Py.join bs := 1 ]}.
Proof.
  intros Hok Hlo Hhi Hf Hu Hp Hm Hid Hbs.
  set (po := record_positions positions id m ∅).
  assert (Hobs : Forall2 (λ p b, observed po p id = Some b) positions bs).
  { apply Forall2_same_length_lookup. split; [by eapply Forall2_length|].
    intros i p b Hpi Hbi. apply record_positions_observed.
    - by eapply list_elem_of_lookup_2.
    - by apply (Forall2_lookup_lr _ _ _ _ _ _ Hbs Hpi Hbi). }
  assert (Hne : positions ≠ []).
  { apply request_ok_true_iff in Hok as [Hlen _]. intros ->. simpl in Hlen. lia. }
  assert (Hall : ∀ p, p ∈ positions → is_Some (observed po p id)).
  { intros p [i Hi]%list_elem_of_lookup_1.
    destruct (Forall2_lookup_l _ _ _ _ _ Hobs Hi) as (b & _ & Hb). by eexists. }
  destruct (overlapping_all_total positions po) as [ids Hids]; [done| |].
  { intros p Hin. destruct (Hall p Hin) as [b Hb]. unfold observed in Hb.
    destruct (po !! p); [by eexists | done]. }
  assert (ids = {[ id ]}) as ->.
  { apply set_eq. intros id'.
    rewrite (proj2 (overlapping_all_spec _ _ _ Hids) id'), elem_of_singleton. split.
    - intros [_ Hall']. destruct (decide (id' = id)) as [|Hneq]; [done|]. exfalso.
      destruct positions as [|p0 ps]; [done|].
      destruct (Hall' p0) as [b Hb]; [left|].
      unfold po in Hb. rewrite record_positions_observed_other_id in Hb by done.
      unfold observed in Hb. by rewrite lookup_empty in Hb.
    - intros ->. by split. }
  unfold joined_counts, joined_counts_run.
  rewrite Hok. simpl. rewrite Hlo, Hhi. simpl. rewrite Hf. simpl.
  rewrite process_read_accepted, Hm, Hid by done. simpl. fold po.
  rewrite Hids. simpl. rewrite elements_singleton. simpl.
  unfold joint_key. rewrite (joint_bases_of_observed _ _ _ _ Hobs). simpl.
  by rewrite lookup_empty, insert_empty.
Qed.

Lemma single_covering_read_table_witness :
  joined_counts (Sample.store [Sample.read_A]) "chr1" Sample.positions 13
  = Ok {[ Py.join ["A"%char; "C"%char] := 1 ]}.
Proof.
  apply (single_covering_read_table (Sample.store [Sample.read_A]) "chr1"
           Sample.positions 13 4 11 Sample.read_A
           (Cases.get ∅ (pos_nt_map Sample.read_A)) "readA");
    try reflexivity.
  constructor; [by vm_compute|]. constructor; [by vm_compute|]. constructor.
Defined.
